(** * Obsidian OCR tagger: a shallow embedding of [Obsidian_OCR.py]

    The development follows the Python source function by function.
    Python [str] values are sequences of Unicode code points, so a string
    is a list of code points ([N]); literals are written as Rocq strings
    and converted with [of_string].  Functions that can raise return a
    [result]; the document tree is a finite map from paths to contents
    together with the log of the writes performed.  The content of a
    file is its text as stored, decoded to code points: what
    [open(path, 'w').write] is given, since on POSIX the line separator
    is the line feed.  [open(path, 'r').read()] returns the stored text
    with universal newlines: every carriage return with its line feed,
    and every other carriage return, is read as one line feed.  Paths
    are POSIX paths ([os.sep] is the slash). *)

From Stdlib Require Import NArith List Bool Lia Permutation.
From Stdlib Require Import Strings.String Strings.Ascii.
From stdpp Require Import strings gmap list.

Local Open Scope N_scope.
Local Open Scope nat_scope.

(** ** Strings *)

Abbreviation char := N (only parsing).
Abbreviation str := (list N) (only parsing).

Definition of_string (s : string) : str :=
  List.map N_of_ascii (list_ascii_of_string s).

Definition NL : char := 10%N.        (* newline *)
Definition CR : char := 13%N.        (* carriage return *)
Definition TAB : char := 9%N.        (* tab *)
Definition SPACE : char := 32%N.
Definition DQUOTE : char := 34%N.    (* double quote *)
Definition SQUOTE : char := 39%N.    (* single quote *)
Definition BACKSLASH : char := 92%N.
Definition SLASH : char := 47%N.
Definition DOT : char := 46%N.
Definition UNDERSCORE : char := 95%N.
Definition RBRACKET : char := 93%N.  (* closing bracket *)

(** [str.isspace] on one code point; the same predicate drives
    [str.strip()] and the regular-expression class [\s] on [str]
    patterns. *)
Definition is_space (c : char) : bool :=
  ((9 <=? c) && (c <=? 13) || (28 <=? c) && (c <=? 32)
   || (c =? 133) || (c =? 160) || (c =? 5760)
   || (8192 <=? c) && (c <=? 8202)
   || (c =? 8232) || (c =? 8233) || (c =? 8239) || (c =? 8287)
   || (c =? 12288))%N.

(** [s.startswith(p)] *)
Fixpoint str_startswith (p s : str) : bool :=
  match p, s with
  | [], _ => true
  | a :: p', b :: s' => N.eqb a b && str_startswith p' s'
  | _ :: _, [] => false
  end.

(** [p in s] *)
Fixpoint str_contains (p s : str) : bool :=
  str_startswith p s
  || match s with
     | [] => false
     | _ :: s' => str_contains p s'
     end.

(** The scan of [s.replace(old, new)] for a nonempty [old]: [skip] counts
    the characters of the current occurrence that are still to be
    dropped, so occurrences are found left to right and never overlap. *)
Fixpoint replace_scan (old new : str) (skip : nat) (s : str) : str :=
  match s with
  | [] => []
  | c :: s' =>
      match skip with
      | S k => replace_scan old new k s'
      | O =>
          if str_startswith old s
          then new ++ replace_scan old new (length old - 1) s'
          else c :: replace_scan old new 0 s'
      end
  end.

(** [s.replace(old, new)]; with an empty [old] Python inserts [new]
    before every character and at the end. *)
Definition str_replace (old new s : str) : str :=
  match old with
  | [] => new ++ flat_map (fun c => c :: new) s
  | _ :: _ => replace_scan old new 0 s
  end.

Fixpoint drop_while (f : char -> bool) (s : str) : str :=
  match s with
  | [] => []
  | c :: s' => if f c then drop_while f s' else s
  end.

Definition str_lstrip (s : str) : str := drop_while is_space s.
Definition str_rstrip (s : str) : str := rev (drop_while is_space (rev s)).

(** [s.strip()] *)
Definition str_strip (s : str) : str := str_rstrip (str_lstrip s).

(** [s.rstrip(c)] for a one-character argument *)
Definition str_rstrip_char (c : char) (s : str) : str :=
  rev (drop_while (N.eqb c) (rev s)).

(** [s.split(sep)] for a one-character separator *)
Fixpoint str_split (sep : char) (s : str) : list str :=
  match s with
  | [] => [[]]
  | c :: s' =>
      if N.eqb c sep then [] :: str_split sep s'
      else match str_split sep s' with
           | seg :: segs => (c :: seg) :: segs
           | [] => [[c]]
           end
  end.

(** [sep.join(parts)] *)
Fixpoint str_join (sep : str) (parts : list str) : str :=
  match parts with
  | [] => []
  | [x] => x
  | x :: rest => x ++ sep ++ str_join sep rest
  end.

(** [s.rfind(c) + 1]: the index just after the last [c], or 0 *)
Fixpoint rfind_succ (c : char) (s : str) : nat :=
  match s with
  | [] => 0
  | x :: s' =>
      match rfind_succ c s' with
      | O => if N.eqb x c then 1 else 0
      | S k => S (S k)
      end
  end.

(** ** Cleaning of the recognised text ([perform_ocr], line 128) *)

Definition clean (ocr_text : str) : str :=
  str_replace [BACKSLASH] [BACKSLASH; BACKSLASH]
    (str_replace [DQUOTE] [SQUOTE]
       (str_replace [SPACE; SPACE] [SPACE]
          (str_replace [TAB] [SPACE]
             (str_replace [CR] []
                (str_replace [NL] [SPACE]
                   (str_strip ocr_text)))))).

(** The cleaning rules as the specification words them: trim, turn each
    newline and each carriage return into one space, turn each tab into a
    space, replace each non-overlapping pair of spaces by one space in a
    single left-to-right pass, turn double quotes into single quotes,
    double every backslash. *)
Definition spec_trim (s : str) : str :=
  rev (drop_while is_space (rev (drop_while is_space s))).

Definition spec_newlines (c : char) : char :=
  if N.eqb c NL || N.eqb c CR then SPACE else c.

Definition spec_tabs (c : char) : char :=
  if N.eqb c TAB then SPACE else c.

Fixpoint spec_pairs (s : str) : str :=
  match s with
  | a :: ((b :: s'') as s') =>
      if N.eqb a SPACE && N.eqb b SPACE then SPACE :: spec_pairs s''
      else a :: spec_pairs s'
  | _ => s
  end.

Definition spec_quotes (c : char) : char :=
  if N.eqb c DQUOTE then SQUOTE else c.

Definition spec_backslashes (s : str) : str :=
  flat_map (fun c => if N.eqb c BACKSLASH then [c; c] else [c]) s.

Definition spec_clean (raw : str) : str :=
  spec_backslashes
    (List.map spec_quotes
       (spec_pairs
          (List.map spec_tabs
             (List.map spec_newlines (spec_trim raw))))).

(** ** Configuration and external collaborators *)

(** The module-level variables of the script. *)
Record Config := {
  IMAGE_EXTENSIONS : list str;
  ATTACHMENT_FOLDER : str;
  OVERWRITE_OCR : bool;
  OCR_LANGUAGES : str
}.

(** What [image_to_string(Image.open(path), lang=...)] does on a path:
    it returns the recognised text or raises; [message] is [str(e)]. *)
Inductive ocr_outcome :=
  | Recognized (text : str)
  | OcrError (message : str).

(** The collaborators the script calls: the recognition engine,
    [unicodedata.normalize('NFD', _)], and the order in which
    [as_completed] hands back the futures of one document. *)
Record World := {
  image_to_string : str -> str -> ocr_outcome;
  normalize_NFD : str -> str;
  as_completed : list (option str) -> list (option str)
}.

(** [as_completed] yields every submitted future exactly once. *)
Definition fair (w : World) : Prop :=
  forall results, Permutation (as_completed w results) results.

(** ** Exceptions *)

(** [ReError] stands for what the [re] module raises on a replacement
    template it rejects. *)
Inductive exn :=
  | FileNotFoundError
  | ReError.

Inductive result (A : Type) :=
  | Ok (a : A)
  | Raise (e : exn).
Arguments Ok {A} a.
Arguments Raise {A} e.

#[global] Instance result_ret : MRet result := fun A a => Ok a.

#[global] Instance result_bind : MBind result := fun A B k r =>
  match r with
  | Ok a => k a
  | Raise e => Raise e
  end.

(** ** The document tree *)

(** File contents by path, and the paths written so far (latest first). *)
Record Vault := {
  files : gmap str str;
  writes : list str
}.

(** The newline translation of a file opened for reading in text mode
    with the default [newline=None]: [CR LF] and a [CR] alone are both
    read as [LF]. *)
Fixpoint universal_newlines (s : str) : str :=
  match s with
  | [] => []
  | c :: s' =>
      if N.eqb c CR then
        NL :: match s' with
              | n :: s'' =>
                  if N.eqb n NL then universal_newlines s''
                  else universal_newlines s'
              | [] => []
              end
      else c :: universal_newlines s'
  end.

(** [open(path, 'r')] and [file.read()] (lines 68-69 and 160-161). *)
Definition read_file (v : Vault) (path : str) : result str :=
  match files v !! path with
  | Some content => Ok (universal_newlines content)
  | None => Raise FileNotFoundError
  end.

(** [open(path, 'w')] and [file.write(content)] (lines 190-191): the
    text is stored as given, a carriage return included. *)
Definition write_file (v : Vault) (path content : str) : Vault :=
  {| files := <[path := content]> (files v); writes := path :: writes v |}.

(** ** [posixpath] *)

Definition basename (p : str) : str := drop (rfind_succ SLASH p) p.

Definition dirname (p : str) : str :=
  let head := take (rfind_succ SLASH p) p in
  match head with
  | [] => head
  | _ :: _ => if forallb (N.eqb SLASH) head then head
              else str_rstrip_char SLASH head
  end.

(** [splitext]: the extension starts at the last dot of the last
    component, unless that component has only dots before it. *)
Definition splitext (p : str) : str * str :=
  let sep := rfind_succ SLASH p in
  let dot := rfind_succ DOT p in
  if (sep <? dot)
     && negb (forallb (N.eqb DOT) (take (dot - 1 - sep) (drop sep p)))
  then (take (dot - 1) p, drop (dot - 1) p)
  else (p, []).

(** ** [modify_image_path] *)

Definition RESOURCES : str := Eval cbv in of_string ".resources".

Definition modify_image_path (image_path : str) : str :=
  let path_parts := str_split SLASH image_path in
  let modified_parts :=
    List.filter (fun part => negb (str_contains RESOURCES part)) path_parts in
  str_join [SLASH] modified_parts.

(** ** [find_linked_attachment] *)

Definition find_linked_attachment (cfg : Config) (w : World)
    (md_path image_link : str) : str :=
  if negb (str_contains (ATTACHMENT_FOLDER cfg) image_link)
  then dirname md_path ++ [SLASH] ++ ATTACHMENT_FOLDER cfg ++ [SLASH]
       ++ str_replace [SPACE] [UNDERSCORE] (fst (splitext (basename md_path)))
       ++ of_string ".resources/" ++ basename image_link
  else dirname md_path ++ [SLASH]
       ++ str_join [SLASH]
            (List.filter
               (fun i =>
                  negb (existsb (fun part => bool_decide (normalize_NFD w i = part))
                          (List.map (normalize_NFD w) (str_split SLASH md_path))))
               (str_split SLASH image_link)).

(** ** [perform_ocr] *)

Definition NO_SUCH_FILE : str :=
  Eval cbv in of_string "No such file or directory".

(** The function calls itself in its exception handler, so the model
    recurses on [fuel]; it returns the value of the call ([None] is
    Python's [None]) and the paths on which the engine was invoked, in
    order.  Without fuel left there is no result. *)
Fixpoint perform_ocr_fuel (fuel : nat) (cfg : Config) (w : World)
    (image_path : str) : option (option str * list str) :=
  match fuel with
  | O => None
  | S fuel' =>
      match image_to_string w image_path (OCR_LANGUAGES cfg) with
      | Recognized ocr_text => Some (Some (clean ocr_text), [image_path])
      | OcrError e =>
          if str_contains NO_SUCH_FILE e && str_contains RESOURCES image_path
          then match perform_ocr_fuel fuel' cfg w (modify_image_path image_path) with
               | Some (r, calls) => Some (r, image_path :: calls)
               | None => None
               end
          else Some (None, [image_path])
      end
  end.

(** Every retry removes at least one path segment, so one more unit of
    fuel than the path has characters is never exhausted. *)
Definition perform_ocr (cfg : Config) (w : World) (image_path : str)
    : option str :=
  match perform_ocr_fuel (S (length image_path)) cfg w image_path with
  | Some (r, _) => r
  | None => None
  end.

(** ** Regular expressions of the script

    Each pattern of the source is modelled by the matcher that
    backtracking amounts to on it; the lemmas [front_matter_search_regex],
    [ocr_field_match_regex] and [link_match_regex] prove them equal to
    the backtracking semantics of the patterns as written. *)

Fixpoint take_while (f : char -> bool) (s : str) : str :=
  match s with
  | [] => []
  | c :: s' => if f c then c :: take_while f s' else []
  end.

(** The text before and after the first occurrence of [p] in [s]. *)
Fixpoint str_partition (p s : str) : option (str * str) :=
  if str_startswith p s then Some ([], drop (length p) s)
  else match s with
       | [] => None
       | c :: s' =>
           match str_partition p s' with
           | Some (before, after) => Some (c :: before, after)
           | None => None
           end
       end.

Definition FM_OPEN : str := Eval cbv in of_string "---" ++ [NL].
Definition FM_CLOSE : str := Eval cbv in NL :: of_string "---".
Definition OCR_KEY : str := Eval cbv in of_string "OCR:".

(** [re.search(r'^---\n(.*?)\n---', content, re.DOTALL)]: without
    [re.MULTILINE] the anchor holds only at index 0, and the lazy group
    stops at the first closing delimiter.  The result is group 1 and the
    text after the match. *)
Definition front_matter_search (content : str) : option (str * str) :=
  if str_startswith FM_OPEN content
  then str_partition FM_CLOSE (drop (length FM_OPEN) content)
  else None.

(** The text before and after the last double quote of [s]. *)
Fixpoint rpartition_quote (s : str) : option (str * str) :=
  match s with
  | [] => None
  | c :: s' =>
      match rpartition_quote s' with
      | Some (before, after) => Some (c :: before, after)
      | None => if N.eqb c DQUOTE then Some ([], s') else None
      end
  end.

Definition not_newline (c : char) : bool := negb (N.eqb c NL).

(** One attempt of [(OCR:\s*").*(")] at the head of [s]: the greedy [\s*]
    takes all the white space, the greedy [.*] runs to the end of the
    line and gives back to the last double quote on it.  The result is
    group 1 and the length of the whole match; group 2 is the quote. *)
Definition ocr_field_match (s : str) : option (str * nat) :=
  if str_startswith OCR_KEY s then
    let s1 := drop (length OCR_KEY) s in
    let ws := take_while is_space s1 in
    match drop_while is_space s1 with
    | q :: s2 =>
        if N.eqb q DQUOTE then
          match rpartition_quote (take_while not_newline s2) with
          | Some (value, _) =>
              Some (OCR_KEY ++ ws ++ [DQUOTE],
                    length OCR_KEY + length ws + 1 + length value + 1)
          | None => None
          end
        else None
    | [] => None
    end
  else None.

(** [re.sub(r'(OCR:\s*").*(")', lambda match: match.group(1) + ocr_text
    + match.group(2), s)]: every match, left to right, without overlap;
    [skip] counts the characters of the current match still to pass. *)
Fixpoint sub_ocr_field (ocr_text : str) (skip : nat) (s : str) : str :=
  match s with
  | [] => []
  | c :: s' =>
      match skip with
      | S k => sub_ocr_field ocr_text k s'
      | O =>
          match ocr_field_match s with
          | Some (group1, len) =>
              group1 ++ ocr_text ++ [DQUOTE]
              ++ sub_ocr_field ocr_text (len - 1) s'
          | None => c :: sub_ocr_field ocr_text 0 s'
          end
      end
  end.

(** *** Replacement templates

    A string given to [re.sub] as replacement is a template: [re] reads
    backslash escapes in it ([parse_template]) and raises on those it
    does not know.  Group names after [\g] are read as CPython 3.12 and
    later do: only ASCII decimal numerals name a group of a pattern
    without named groups. *)

Definition is_digit (c : char) : bool := ((48 <=? c) && (c <=? 57))%N.
Definition is_octdigit (c : char) : bool := ((48 <=? c) && (c <=? 55))%N.
Definition is_ascii_letter (c : char) : bool :=
  ((65 <=? c) && (c <=? 90) || (97 <=? c) && (c <=? 122))%N.
Definition digit_value (c : char) : N := (c - 48)%N.

(** The table [ESCAPES] of the template parser. *)
Definition escape_char (c : char) : option char :=
  if N.eqb c 97 then Some 7%N          (* \a *)
  else if N.eqb c 98 then Some 8%N     (* \b *)
  else if N.eqb c 102 then Some 12%N   (* \f *)
  else if N.eqb c 110 then Some 10%N   (* \n *)
  else if N.eqb c 114 then Some 13%N   (* \r *)
  else if N.eqb c 116 then Some 9%N    (* \t *)
  else if N.eqb c 118 then Some 11%N   (* \v *)
  else if N.eqb c BACKSLASH then Some BACKSLASH
  else None.

Definition group_ref (groups : list str) (index : N) : result str :=
  match groups !! N.to_nat index with
  | Some g => Ok g
  | None => Raise ReError
  end.

Definition decimal (digits : str) : N :=
  fold_left (fun acc d => (10 * acc + digit_value d)%N) digits 0%N.

(** What the escape starting at a backslash stands for, and how many
    characters it takes after the backslash; [rest] is the text after
    the backslash. *)
Definition template_escape (groups : list str) (rest : str)
    : result (str * nat) :=
  match rest with
  | [] => Raise ReError
  | c :: rest1 =>
      if N.eqb c 103 then                                   (* \g<name> *)
        match rest1 with
        | lt :: rest2 =>
            if N.eqb lt 60 then
              let name := take_while (fun x => negb (N.eqb x 62)) rest2 in
              if length name =? length rest2 then Raise ReError
              else if forallb is_digit name && negb (length name =? 0)
              then g ← group_ref groups (decimal name);
                   Ok (g, 2 + length name + 1)
              else Raise ReError
            else Raise ReError
        | [] => Raise ReError
        end
      else if N.eqb c 48 then                               (* \0, \0d, \0dd *)
        match rest1 with
        | d1 :: rest2 =>
            if is_octdigit d1 then
              match rest2 with
              | d2 :: _ =>
                  if is_octdigit d2
                  then Ok ([(8 * digit_value d1 + digit_value d2)%N], 3)
                  else Ok ([digit_value d1], 2)
              | [] => Ok ([digit_value d1], 2)
              end
            else Ok ([0%N], 1)
        | [] => Ok ([0%N], 1)
        end
      else if is_digit c then
        match rest1 with
        | d :: rest2 =>
            if is_digit d then
              if is_octdigit c && is_octdigit d
                 && match rest2 with
                    | o :: _ => is_octdigit o
                    | [] => false
                    end
              then
                let v := (64 * digit_value c + 8 * digit_value d
                          + digit_value (hd 0%N rest2))%N in
                if (255 <? v)%N then Raise ReError else Ok ([v], 3)
              else g ← group_ref groups (10 * digit_value c + digit_value d)%N;
                   Ok (g, 2)
            else g ← group_ref groups (digit_value c); Ok (g, 1)
        | [] => g ← group_ref groups (digit_value c); Ok (g, 1)
        end
      else
        match escape_char c with
        | Some x => Ok ([x], 1)
        | None =>
            if is_ascii_letter c then Raise ReError
            else Ok ([BACKSLASH; c], 1)
        end
  end.

(** The expansion of a template against the groups of a match (group 0
    first); [skip] counts the characters of the current escape still to
    pass. *)
Fixpoint expand_template (groups : list str) (skip : nat) (template : str)
    : result str :=
  match template with
  | [] => Ok []
  | c :: rest =>
      match skip with
      | S k => expand_template groups k rest
      | O =>
          if N.eqb c BACKSLASH then
            e ← template_escape groups rest;
            tail ← expand_template groups (snd e) rest;
            Ok (fst e ++ tail)
          else
            tail ← expand_template groups 0 rest;
            Ok (c :: tail)
      end
  end.

(** ** [update_markdown_file] *)

Definition OCR_FIELD_OPEN : str := Eval cbv in of_string "OCR: " ++ [DQUOTE].

(** The text the function computes from the text it read. *)
Definition updated_content (existing_content ocr_text : str) : result str :=
  match front_matter_search existing_content with
  | Some (front_matter, after) =>
      let updated_front_matter :=
        if str_contains OCR_KEY front_matter
        then sub_ocr_field ocr_text 0 front_matter
        else front_matter ++ [NL] ++ OCR_FIELD_OPEN ++ ocr_text ++ [DQUOTE] in
      replacement ←
        expand_template
          [FM_OPEN ++ front_matter ++ FM_CLOSE; front_matter] 0
          (FM_OPEN ++ updated_front_matter ++ FM_CLOSE);
      Ok (replacement ++ after)
  | None =>
      let ocr_block :=
        FM_OPEN ++ OCR_FIELD_OPEN ++ ocr_text ++ [DQUOTE] ++ FM_CLOSE ++ [NL] in
      Ok (ocr_block ++ existing_content)
  end.

Definition update_markdown_file (v : Vault) (md_file ocr_text : str)
    : result Vault :=
  existing_content ← read_file v md_file;
  content ← updated_content existing_content ocr_text;
  Ok (write_file v md_file content).

(** ** [extract_image_links] *)

Definition is_upper (c : char) : bool := ((65 <=? c) && (c <=? 90))%N.
Definition is_lower (c : char) : bool := ((97 <=? c) && (c <=? 122))%N.

(** Whether the text character [c] matches the pattern character [p]
    under [re.IGNORECASE]; the pattern characters are those of the
    configured extensions (ASCII letters, digits and the escaped dot). *)
Definition ci_match (p c : char) : bool :=
  (N.eqb c p
   || is_lower p && N.eqb c (p - 32)
   || is_upper p && N.eqb c (p + 32)
   || (N.eqb p 105 || N.eqb p 73) && (N.eqb c 304 || N.eqb c 305)
   || (N.eqb p 107 || N.eqb p 75) && N.eqb c 8490
   || (N.eqb p 115 || N.eqb p 83) && N.eqb c 383)%N.

Fixpoint ci_startswith (p s : str) : bool :=
  match p, s with
  | [], _ => true
  | a :: p', b :: s' => ci_match a b && ci_startswith p' s'
  | _ :: _, [] => false
  end.

Definition LINK_OPEN : str := Eval cbv in of_string "![[".
Definition LINK_CLOSE : str := Eval cbv in of_string "]]".

(** The alternation of the extensions, in order, followed by the closing
    brackets, at the head of [s]: the length of the extension matched.
    Line 73 escapes the dots and line 75 pastes the extensions into the
    pattern, where an extension made of ASCII letters, digits and dots
    (see [literal_extensions] below) matches as its own text up to
    case; this is what the definition gives.  An extension that holds
    another character with a meaning in a pattern is outside it. *)
Fixpoint match_extension (exts : list str) (s : str) : option nat :=
  match exts with
  | [] => None
  | e :: exts' =>
      if ci_startswith e s && str_startswith LINK_CLOSE (drop (length e) s)
      then Some (length e)
      else match_extension exts' s
  end.

(** The rest of the lazy run [[^]]+?] once it holds one character: the
    shortest continuation after which an extension and the closing
    brackets follow.  The result is the length of what group 1 takes
    from [s]. *)
Fixpoint link_rest (exts : list str) (s : str) : option nat :=
  match match_extension exts s with
  | Some n => Some n
  | None =>
      match s with
      | c :: s' =>
          if N.eqb c RBRACKET then None
          else option_map S (link_rest exts s')
      | [] => None
      end
  end.

(** One attempt of the link pattern at the head of [s]: the length of
    group 1. *)
Definition link_match (exts : list str) (s : str) : option nat :=
  if str_startswith LINK_OPEN s then
    match drop (length LINK_OPEN) s with
    | c :: s' =>
        if N.eqb c RBRACKET then None
        else option_map S (link_rest exts s')
    | [] => None
    end
  else None.

(** [re.findall(pattern, content, re.IGNORECASE)]: group 1 of every
    match, left to right, without overlap. *)
Fixpoint findall_links (exts : list str) (skip : nat) (s : str) : list str :=
  match s with
  | [] => []
  | c :: s' =>
      match skip with
      | S k => findall_links exts k s'
      | O =>
          match link_match exts s with
          | Some n =>
              take n (drop (length LINK_OPEN) s)
              :: findall_links exts (length LINK_OPEN + n + length LINK_CLOSE - 1) s'
          | None => findall_links exts 0 s'
          end
      end
  end.

(** The alternatives of ["|".join(IMAGE_EXTENSIONS)]: joining nothing
    gives the empty pattern, which is one empty alternative. *)
Definition alternatives (exts : list str) : list str :=
  match exts with
  | [] => [[]]
  | _ :: _ => exts
  end.

Definition extract_image_links (cfg : Config) (v : Vault)
    (md_file : str) (overwrite : bool) : result (list str) :=
  content ← read_file v md_file;
  if negb overwrite && str_contains OCR_KEY content then Ok []
  else Ok (findall_links (alternatives (IMAGE_EXTENSIONS cfg)) 0 content).

(** ** The patterns as syntax

    The three matchers above are what backtracking gives on the
    patterns of the source.  To tie them to the patterns as written, the
    fragment of [re] that the patterns use is given its backtracking
    semantics here: literals, repetitions of one character class (greedy
    or lazy, with a minimum), sequence, alternation, capturing groups and
    the start anchor.  The groups of these patterns are not nested, so
    the captures are listed as the groups close. *)

Inductive regex :=
  | Bol                                            (* ^ *)
  | Lit (text : str)
  | LitI (text : str)                              (* under IGNORECASE *)
  | Rep (greedy : bool) (min : nat) (class : char -> bool)
  | Cat (r1 r2 : regex)
  | Alt (r1 r2 : regex)
  | Grp (r : regex).

(** [class*] taking as much as it can and giving back one character at
    a time until the rest of the pattern, [k], matches. *)
Fixpoint rep_greedy {A} (class : char -> bool) (k : str -> option A)
    (min : nat) (s : str) : option A :=
  match s with
  | c :: s' =>
      if class c then
        match rep_greedy class k (pred min) s' with
        | Some r => Some r
        | None => if min =? 0 then k s else None
        end
      else if min =? 0 then k s else None
  | [] => if min =? 0 then k s else None
  end.

(** [class*?] taking one character more each time the rest of the
    pattern fails. *)
Fixpoint rep_lazy {A} (class : char -> bool) (k : str -> option A)
    (min : nat) (s : str) : option A :=
  match (if min =? 0 then k s else None) with
  | Some r => Some r
  | None =>
      match s with
      | c :: s' => if class c then rep_lazy class k (pred min) s' else None
      | [] => None
      end
  end.

(** The match of [r] at the head of [s] with continuation [k]; [total]
    is the length of the whole subject, by which the anchor knows the
    start. *)
Fixpoint run {A} (total : nat) (r : regex) (s : str) (caps : list str)
    (k : str -> list str -> option A) : option A :=
  match r with
  | Bol => if length s =? total then k s caps else None
  | Lit text =>
      if str_startswith text s then k (drop (length text) s) caps else None
  | LitI text =>
      if ci_startswith text s then k (drop (length text) s) caps else None
  | Rep true min class => rep_greedy class (fun s' => k s' caps) min s
  | Rep false min class => rep_lazy class (fun s' => k s' caps) min s
  | Cat r1 r2 => run total r1 s caps (fun s' caps' => run total r2 s' caps' k)
  | Alt r1 r2 =>
      match run total r1 s caps k with
      | Some x => Some x
      | None => run total r2 s caps k
      end
  | Grp r1 =>
      run total r1 s caps
        (fun s' caps' => k s' (caps' ++ [take (length s - length s') s]))
  end.

(** The groups and the length of the match of [r] at the head of [s]. *)
Definition match_at (total : nat) (r : regex) (s : str)
    : option (list str * nat) :=
  run total r s [] (fun s' caps => Some (caps, length s - length s')).

(** [re.search]: the first index at which the pattern matches, with the
    groups and the length of the match. *)
Fixpoint search_from (total : nat) (r : regex) (s : str)
    : option (nat * list str * nat) :=
  match match_at total r s with
  | Some (caps, len) => Some (total - length s, caps, len)
  | None =>
      match s with
      | [] => None
      | _ :: s' => search_from total r s'
      end
  end.

Definition re_search (r : regex) (s : str) : option (nat * list str * nat) :=
  search_from (length s) r s.

Definition any_char (c : char) : bool := true.
Definition not_rbracket (c : char) : bool := negb (N.eqb c RBRACKET).

(** [^---\n(.*?)\n---] with [re.DOTALL] *)
Definition FRONT_MATTER_RE : regex :=
  Cat Bol (Cat (Lit FM_OPEN) (Cat (Grp (Rep false 0 any_char)) (Lit FM_CLOSE))).

(** [(OCR:\s*DQ).*(DQ)], DQ the double quote *)
Definition OCR_FIELD_RE : regex :=
  Cat (Grp (Cat (Lit OCR_KEY) (Cat (Rep true 0 is_space) (Lit [DQUOTE]))))
      (Cat (Rep true 0 not_newline) (Grp (Lit [DQUOTE]))).

(** [ext1|ext2|...] under [re.IGNORECASE] *)
Fixpoint alternation (exts : list str) : regex :=
  match exts with
  | [] => Lit []
  | [e] => LitI e
  | e :: rest => Alt (LitI e) (alternation rest)
  end.

(** [!\[\[([^]]+?(?:ext1|ext2|...))\]\]] under [re.IGNORECASE] *)
Definition image_link_re (exts : list str) : regex :=
  Cat (Lit LINK_OPEN)
      (Cat (Grp (Cat (Rep false 1 not_rbracket) (alternation exts)))
           (Lit LINK_CLOSE)).

(** ** [process_markdown_file] *)

(** [str(text) if text is not None else ''] *)
Definition text_or_empty (text : option str) : str :=
  match text with
  | Some t => t
  | None => []
  end.

(** The texts come back in completion order; the file is rewritten only
    when the joined text is not empty. *)
Definition process_markdown_file (cfg : Config) (w : World) (v : Vault)
    (md_file : str) : result Vault :=
  image_links ← extract_image_links cfg v md_file (OVERWRITE_OCR cfg);
  let ocr_texts :=
    as_completed w
      (List.map
         (fun link => perform_ocr cfg w (find_linked_attachment cfg w md_file link))
         image_links) in
  let ocr_text := concat (List.map text_or_empty ocr_texts) in
  match ocr_text with
  | [] => Ok v
  | _ :: _ => update_markdown_file v md_file ocr_text
  end.

(** ** The script's configuration, with an ASCII attachment folder *)

Definition source_extensions : list str :=
  Eval cbv in List.map of_string
    [".png"; ".jpg"; ".jpeg"; ".gif"; ".bmp"; ".tiff"; ".tif"]%string.

Definition example_config : Config :=
  {| IMAGE_EXTENSIONS := source_extensions;
     ATTACHMENT_FOLDER := of_string "Attachments";
     OVERWRITE_OCR := false;
     OCR_LANGUAGES := of_string "eng+est" |}.

(** A world in which no image file exists: the engine always raises the
    error of a missing file; names are ASCII, which NFD leaves alone. *)
Definition missing_world : World :=
  {| image_to_string := fun _ _ =>
       OcrError (of_string "[Errno 2] No such file or directory");
     normalize_NFD := fun s => s;
     as_completed := fun results => rev results |}.

(** A world in which every image shows the same text. *)
Definition constant_world (text : str) : World :=
  {| image_to_string := fun _ _ => Recognized text;
     normalize_NFD := fun s => s;
     as_completed := fun results => results |}.

Definition vault_of (path content : str) : Vault :=
  {| files := {[ path := content ]}; writes := [] |}.

Definition trip_md : str := Eval cbv in of_string "Notes/Trip.md".

(** Documents and texts used as concrete inputs below. *)

Definition marked_document : str :=
  Eval cbv in
    FM_OPEN ++ OCR_FIELD_OPEN ++ of_string "old text" ++ [DQUOTE]
    ++ FM_CLOSE ++ [NL] ++ of_string "![[photo.png]]".

Definition plain_document : str := Eval cbv in of_string "See ![[photo.png]]".

(** What cleaning makes of a recognised single backslash. *)
Definition backslash_text : str := Eval cbv in clean [BACKSLASH].

(** A block with a Windows path in another field and a quoted OCR field. *)
Definition path_document : str :=
  Eval cbv in
    FM_OPEN ++ of_string "source: C:\temp" ++ [NL]
    ++ OCR_FIELD_OPEN ++ of_string "old" ++ [DQUOTE]
    ++ FM_CLOSE ++ [NL] ++ of_string "body".

(** A block whose OCR field has an unquoted value. *)
Definition unquoted_document : str :=
  Eval cbv in
    FM_OPEN ++ of_string "OCR: C:\temp" ++ FM_CLOSE ++ [NL] ++ of_string "body".

(** Texts without a given character, and texts without a backslash. *)
Definition lacks (c : char) (s : str) : bool :=
  forallb (fun x => negb (N.eqb x c)) s.

Definition plain (s : str) : bool := lacks BACKSLASH s.

(** The first character of the key [OCR:]. *)
Definition O_CHAR : char := 79%N.

(** ** [list_markdown_files] *)

(** [s.endswith(suffix)] *)
Definition str_endswith (suffix s : str) : bool :=
  str_startswith (rev suffix) (rev s).

(** [posixpath.join(a, b)] *)
Definition path_join (a b : str) : str :=
  if str_startswith [SLASH] b then b
  else match a with
       | [] => b
       | _ :: _ =>
           if str_endswith [SLASH] a then a ++ b else a ++ [SLASH] ++ b
       end.

(** What lies under a directory: files and directories, in the order in
    which [os.scandir] hands them out.  Symbolic links to directories,
    which [os.walk] lists but does not enter, are not modelled. *)
Inductive entry :=
  | File (name : str)
  | Dir (name : str) (children : list entry).

Definition dir_names (children : list entry) : list str :=
  flat_map (fun c => match c with
                     | Dir name _ => [name]
                     | File _ => []
                     end) children.

Definition file_names (children : list entry) : list str :=
  flat_map (fun c => match c with
                     | File name => [name]
                     | Dir _ _ => []
                     end) children.

(** [os.walk(top)], top down: the triple of the directory, then the walk
    of each of its directories under the joined path.  On something that
    is not a directory the walk yields nothing. *)
Fixpoint os_walk (top : str) (e : entry) : list (str * list str * list str) :=
  match e with
  | File _ => []
  | Dir _ children =>
      (top, dir_names children, file_names children)
      :: flat_map (fun c => match c with
                            | Dir name _ => os_walk (path_join top name) c
                            | File _ => []
                            end) children
  end.

Definition MD_SUFFIX : str := Eval cbv in of_string ".md".

Definition list_markdown_files (path : str) (tree : entry) : list str :=
  flat_map
    (fun '(root, _, files) =>
       List.map (path_join root) (List.filter (str_endswith MD_SUFFIX) files))
    (os_walk path tree).

(** The number of files under a directory, at any depth, whose name ends
    in [.md]. *)
Fixpoint count_markdown (e : entry) : nat :=
  match e with
  | File _ => 0
  | Dir _ children =>
      list_sum
        (List.map (fun c => match c with
                            | File name =>
                                if str_endswith MD_SUFFIX name then 1 else 0
                            | Dir _ _ => count_markdown c
                            end) children)
  end.

(** No name in the tree starts with a slash (names given by the file
    system hold none at all). *)
Fixpoint relative_names (e : entry) : bool :=
  match e with
  | File name => negb (str_startswith [SLASH] name)
  | Dir name children =>
      negb (str_startswith [SLASH] name) && forallb relative_names children
  end.

(** A small vault: two notes, an image and a folder with one more note. *)
Definition example_tree : entry :=
  Dir (of_string "vault")
    [File (of_string "Trip.md");
     File (of_string "photo.png");
     Dir (of_string "Notes")
       [File (of_string "Plan.md"); File (of_string "README.MD")];
     File (of_string "Index.md")].

(** The doubling of backslashes, the last step of the cleaning. *)
Definition double_backslashes (s : str) : str :=
  str_replace [BACKSLASH] [BACKSLASH; BACKSLASH] s.

(** A world in which every image is blank. *)
Definition blank_world : World := constant_world [SPACE; NL; SPACE].

(** A vault with two documents. *)
Definition two_documents : Vault :=
  {| files := {[ trip_md := plain_document;
                 of_string "Notes/Plan.md" := marked_document ]};
     writes := [] |}.

(** A world with one image, filed directly under the attachment folder. *)
Definition fallback_world : World :=
  {| image_to_string := fun path _ =>
       if bool_decide (path = of_string "Notes/Attachments/photo.png")
       then Recognized (of_string "Hello")
       else OcrError (of_string "[Errno 2] No such file or directory");
     normalize_NFD := fun s => s;
     as_completed := fun results => results |}.

(** An extracted link as it stands in the text: between the opening and
    the closing brackets, a first part without a closing bracket, not
    empty, then a text that is one of the extensions up to case. *)
Definition well_formed_link (exts : list str) (content link : str) : Prop :=
  exists run ext e,
    link = run ++ ext /\ run <> [] /\ lacks RBRACKET run = true
    /\ In e exts /\ length ext = length e /\ ci_startswith e ext = true
    /\ str_contains (LINK_OPEN ++ link ++ LINK_CLOSE) content = true.


(** The characters of an extension that stand for themselves in the
    pattern of line 75, once line 73 has escaped the dot: ASCII letters,
    digits and the dot.  The extensions of the script are of this kind;
    [findall_links] is the pattern of line 75 for such extensions. *)
Definition literal_char (c : char) : bool :=
  is_ascii_letter c || is_digit c || N.eqb c DOT.

Definition literal_extensions (exts : list str) : bool :=
  forallb (forallb literal_char) exts.

(** A document with Windows line ends. *)
Definition crlf_document : str :=
  Eval cbv in of_string "one" ++ [CR; NL] ++ of_string "two".

(** * Properties *)

(** ** Strings *)

Lemma str_startswith_app (p s : str) : str_startswith p (p ++ s) = true.
Proof.
  induction p as [|a p IH]; simpl; [reflexivity|].
  now rewrite N.eqb_refl.
Qed.

Lemma str_startswith_inv (p s : str) :
  str_startswith p s = true -> s = p ++ drop (length p) s.
Proof.
  revert s; induction p as [|a p IH]; intros [|b s] H; simpl in *;
    try reflexivity; try discriminate.
  apply andb_prop in H as [Hab Hp].
  apply N.eqb_eq in Hab; subst b.
  f_equal; now apply IH.
Qed.

(** A separator that does not occur in the pattern cuts every
    occurrence: the pattern starts a text with the separator inside only
    if it starts the part before it. *)
Lemma str_startswith_sep (sep : char) (m x y : str) :
  forallb (fun c => negb (N.eqb c sep)) m = true ->
  m <> [] ->
  str_startswith m (x ++ sep :: y) = str_startswith m x.
Proof.
  revert x; induction m as [|a m IH]; intros x Hm Hne; [congruence|].
  simpl in Hm; apply andb_prop in Hm as [Ha Hm].
  destruct x as [|b x]; simpl.
  - apply negb_true_iff in Ha; now rewrite Ha.
  - destruct m as [|a' m'].
    + now destruct (N.eqb a b).
    + rewrite IH; [reflexivity|assumption|discriminate].
Qed.

Lemma str_contains_sep (sep : char) (m x y : str) :
  forallb (fun c => negb (N.eqb c sep)) m = true ->
  m <> [] ->
  str_contains m (x ++ sep :: y) = str_contains m x || str_contains m y.
Proof.
  intros Hm Hne; induction x as [|b x IH].
  - destruct m as [|a m]; [congruence|].
    simpl in *. apply andb_prop in Hm as [Ha _].
    apply negb_true_iff in Ha; now rewrite Ha.
  - change ((b :: x) ++ sep :: y) with (b :: (x ++ sep :: y)).
    cbn [str_contains]. rewrite IH.
    change (b :: (x ++ sep :: y)) with ((b :: x) ++ sep :: y).
    rewrite str_startswith_sep by assumption.
    now rewrite orb_assoc.
Qed.

Lemma str_contains_join (sep : char) (m : str) (parts : list str) :
  forallb (fun c => negb (N.eqb c sep)) m = true ->
  m <> [] ->
  str_contains m (str_join [sep] parts) = existsb (str_contains m) parts.
Proof.
  intros Hm Hne; induction parts as [|x parts IH].
  - destruct m; [congruence|reflexivity].
  - destruct parts as [|y parts].
    + simpl. now rewrite orb_false_r.
    + change (str_join [sep] (x :: y :: parts))
        with (x ++ sep :: str_join [sep] (y :: parts)).
      rewrite str_contains_sep by assumption.
      now rewrite IH.
Qed.

(** ** The retry path never carries the marker *)

Lemma modify_image_path_no_marker (image_path : str) :
  str_contains RESOURCES (modify_image_path image_path) = false.
Proof.
  unfold modify_image_path.
  rewrite str_contains_join by (reflexivity || discriminate).
  apply not_true_is_false; intros H.
  apply existsb_exists in H as (part & Hin & Hc).
  apply filter_In in Hin as [_ Hf].
  now rewrite Hc in Hf.
Qed.

(** ** [perform_ocr]: one retry at most *)



(** ** [posixpath] on a directory and a file name *)

Lemma replace_scan_char (a : char) (new s : str) :
  replace_scan [a] new 0 s
  = flat_map (fun c => if N.eqb a c then new else [c]) s.
Proof.
  induction s as [|c s IH]; [reflexivity|].
  cbn [replace_scan str_startswith flat_map length Nat.sub].
  rewrite andb_true_r, IH.
  now destruct (N.eqb a c).
Qed.

Lemma str_replace_char (a b : char) (s : str) :
  str_replace [a] [b] s = List.map (fun c => if N.eqb c a then b else c) s.
Proof.
  unfold str_replace. rewrite replace_scan_char.
  induction s as [|c s IH]; [reflexivity|].
  cbn [flat_map List.map]. rewrite IH, (N.eqb_sym a c).
  now destruct (N.eqb c a).
Qed.

Lemma rfind_succ_none (c : char) (s : str) :
  forallb (fun x => negb (N.eqb x c)) s = true -> rfind_succ c s = 0.
Proof.
  induction s as [|x s IH]; [reflexivity|]. simpl.
  intros H; apply andb_prop in H as [Hx Hs].
  rewrite (IH Hs). apply negb_true_iff in Hx. now rewrite Hx.
Qed.

Lemma rfind_succ_last (c : char) (dir name : str) :
  forallb (fun x => negb (N.eqb x c)) name = true ->
  rfind_succ c (dir ++ c :: name) = S (length dir).
Proof.
  intros Hname. induction dir as [|x dir IH]; simpl.
  - now rewrite (rfind_succ_none _ _ Hname), N.eqb_refl.
  - now rewrite IH.
Qed.

Lemma basename_join (dir name : str) :
  forallb (fun x => negb (N.eqb x SLASH)) name = true ->
  basename (dir ++ SLASH :: name) = name.
Proof.
  intros Hname. unfold basename. rewrite (rfind_succ_last _ _ _ Hname).
  change (dir ++ SLASH :: name) with (dir ++ [SLASH] ++ name).
  rewrite app_assoc, drop_app_length'; [reflexivity|].
  rewrite length_app; simpl; lia.
Qed.

Lemma dirname_join (dir name : str) (c : char) :
  c <> SLASH ->
  forallb (fun x => negb (N.eqb x SLASH)) name = true ->
  dirname ((dir ++ [c]) ++ SLASH :: name) = dir ++ [c].
Proof.
  intros Hc Hname. unfold dirname. rewrite (rfind_succ_last _ _ _ Hname).
  change ((dir ++ [c]) ++ SLASH :: name) with ((dir ++ [c]) ++ [SLASH] ++ name).
  rewrite app_assoc, take_app_length'
    by (rewrite !length_app; simpl; lia).
  assert (Hnot : forallb (N.eqb SLASH) ((dir ++ [c]) ++ [SLASH]) = false).
  { rewrite !forallb_app. cbn [forallb].
    replace (N.eqb SLASH c) with false
      by (symmetry; apply N.eqb_neq; congruence).
    now rewrite andb_false_r. }
  destruct ((dir ++ [c]) ++ [SLASH]) as [|x l] eqn:E.
  - now destruct dir.
  - rewrite Hnot, <- E. unfold str_rstrip_char.
    rewrite !rev_app_distr. cbn [rev app drop_while].
    rewrite N.eqb_refl.
    replace (N.eqb SLASH c) with false
      by (symmetry; apply N.eqb_neq; congruence).
    cbn [rev]. now rewrite rev_involutive.
Qed.

(** ** [find_linked_attachment] *)

(** C4. When the attachment folder's name does not occur in the link,
    the result is the document's directory, the attachment folder, the
    document's file name without its extension and with every space
    turned into an underscore, the suffix [.resources], and the last
    component of the link; for [Notes/Trip.md] and
    [Trip.resources/photo.png] under [Attachments] this is
    [Notes/Attachments/Trip.resources/photo.png]. *)
Theorem find_linked_attachment_default (cfg : Config) (w : World)
    (md_path image_link : str) :
  str_contains (ATTACHMENT_FOLDER cfg) image_link = false ->
  find_linked_attachment cfg w md_path image_link
  = dirname md_path ++ [SLASH] ++ ATTACHMENT_FOLDER cfg ++ [SLASH]
    ++ List.map (fun c => if N.eqb c SPACE then UNDERSCORE else c)
         (fst (splitext (basename md_path)))
    ++ of_string ".resources" ++ [SLASH] ++ basename image_link
  /\ find_linked_attachment example_config w trip_md
       (of_string "Trip.resources/photo.png")
     = of_string "Notes/Attachments/Trip.resources/photo.png".
Proof.
  intros Hno. split; [|reflexivity].
  unfold find_linked_attachment. rewrite Hno. cbn [negb].
  now rewrite str_replace_char.
Qed.

Lemma find_linked_attachment_default_witness :
  find_linked_attachment example_config missing_world
    (of_string "Notes/My Trip.md") (of_string "photo 1.png")
  = of_string "Notes/Attachments/My_Trip.resources/photo 1.png".
Proof.
  exact (proj1 (find_linked_attachment_default example_config missing_world
           (of_string "Notes/My Trip.md") (of_string "photo 1.png") eq_refl)).
Defined.

Lemma nfd_overlap_decide (nfd : str -> str) (seg : str) (parts : list str) :
  negb (existsb (fun part => bool_decide (nfd seg = part)) (List.map nfd parts))
  = bool_decide (Forall (fun part => nfd seg <> nfd part) parts).
Proof.
  induction parts as [|part parts IH]; [reflexivity|].
  cbn [List.map existsb]. rewrite negb_orb, IH.
  destruct (decide (nfd seg = nfd part)) as [e|n].
  - rewrite (bool_decide_eq_true_2 _ e). cbn.
    symmetry. apply bool_decide_eq_false_2.
    intros H. inversion H; subst. contradiction.
  - rewrite (bool_decide_eq_false_2 _ n). cbn.
    destruct (decide (Forall (fun part0 => nfd seg <> nfd part0) parts)) as [a|b].
    + rewrite !bool_decide_eq_true_2; auto.
    + rewrite !bool_decide_eq_false_2; auto.
      intros H. inversion H; subst. contradiction.
Qed.

Lemma filter_bool_decide {A} (P : A -> Prop) `{forall x, Decision (P x)}
    (f : A -> bool) (l : list A) :
  (forall x, f x = bool_decide (P x)) ->
  List.filter f l = filter P l.
Proof.
  intros Hf. induction l as [|x l IH]; [reflexivity|].
  cbn [List.filter]. rewrite filter_cons, Hf, IH.
  destruct (decide (P x)) as [p|n].
  - now rewrite (bool_decide_eq_true_2 _ p).
  - now rewrite (bool_decide_eq_false_2 _ n).
Qed.

(** C5. When the attachment folder's name occurs in the link, the link is
    split on the slash, the segments whose NFD form differs from the NFD
    form of every slash-separated segment of the document's path are
    kept, in order, and their join with slashes is put under the
    document's directory. *)
Theorem find_linked_attachment_explicit (cfg : Config) (w : World)
    (md_path image_link : str) :
  str_contains (ATTACHMENT_FOLDER cfg) image_link = true ->
  find_linked_attachment cfg w md_path image_link
  = dirname md_path ++ [SLASH]
    ++ str_join [SLASH]
         (filter
            (fun seg =>
               Forall (fun part => normalize_NFD w seg <> normalize_NFD w part)
                 (str_split SLASH md_path))
            (str_split SLASH image_link)).
Proof.
  intros Hin. unfold find_linked_attachment. rewrite Hin. cbn [negb].
  do 3 f_equal. apply filter_bool_decide.
  intros seg. apply nfd_overlap_decide.
Qed.

Lemma find_linked_attachment_explicit_witness :
  find_linked_attachment example_config missing_world
    (of_string "Notes/Trip/Trip.md") (of_string "Attachments/Trip/photo.png")
  = of_string "Notes/Trip/Attachments/photo.png".
Proof.
  rewrite (find_linked_attachment_explicit example_config missing_world
             (of_string "Notes/Trip/Trip.md")
             (of_string "Attachments/Trip/photo.png") eq_refl).
  reflexivity.
Defined.

(** ** Reading in text mode *)

Lemma lacks_app (c : char) (x y : str) :
  lacks c (x ++ y) = lacks c x && lacks c y.
Proof. apply forallb_app. Qed.

Lemma universal_newlines_cons (c : char) (s : str) :
  universal_newlines (c :: s)
  = if N.eqb c CR then
      NL :: match s with
            | n :: s' =>
                if N.eqb n NL then universal_newlines s'
                else universal_newlines s
            | [] => []
            end
    else c :: universal_newlines s.
Proof. now destruct s. Qed.

(** Induction along the translation: a text is empty, or a carriage
    return and a line feed before a text, or a carriage return before a
    text that starts with no line feed, or another character before a
    text. *)
Lemma universal_newlines_ind (P : str -> Prop) :
  P [] ->
  (forall s, P s -> P (CR :: NL :: s)) ->
  (forall s, str_startswith [NL] s = false -> P s -> P (CR :: s)) ->
  (forall c s, N.eqb c CR = false -> P s -> P (c :: s)) ->
  forall s, P s.
Proof.
  intros Hnil Hcrlf Hcr Hother s.
  remember (length s) as n eqn:Hn. revert s Hn.
  induction n as [n IH] using lt_wf_ind. intros s Hn.
  destruct s as [|c s]; [exact Hnil|].
  destruct (N.eqb c CR) eqn:Ec.
  - apply N.eqb_eq in Ec. subst c.
    destruct s as [|d s].
    + apply Hcr; [reflexivity|exact Hnil].
    + destruct (N.eqb NL d) eqn:Ed.
      * apply N.eqb_eq in Ed. subst d.
        apply Hcrlf. apply (IH (length s)); [subst n; cbn; lia|reflexivity].
      * apply Hcr; [cbn [str_startswith]; now rewrite Ed|].
        apply (IH (length (d :: s))); [subst n; cbn; lia|reflexivity].
  - apply Hother; [exact Ec|].
    apply (IH (length s)); [subst n; cbn; lia|reflexivity].
Qed.

Lemma universal_newlines_crlf (s : str) :
  universal_newlines (CR :: NL :: s) = NL :: universal_newlines s.
Proof. reflexivity. Qed.

Lemma universal_newlines_cr (s : str) :
  str_startswith [NL] s = false ->
  universal_newlines (CR :: s) = NL :: universal_newlines s.
Proof.
  intros H. rewrite universal_newlines_cons. cbn [N.eqb CR Pos.eqb].
  destruct s as [|d s]; [reflexivity|].
  cbn [str_startswith] in H. rewrite andb_true_r, N.eqb_sym in H.
  now rewrite H.
Qed.

Lemma universal_newlines_other (c : char) (s : str) :
  N.eqb c CR = false ->
  universal_newlines (c :: s) = c :: universal_newlines s.
Proof. intros H. now rewrite universal_newlines_cons, H. Qed.

(** What is read holds no carriage return. *)
Lemma universal_newlines_lacks_cr (s : str) :
  lacks CR (universal_newlines s) = true.
Proof.
  induction s as [|s IH|s Hs IH|c s Hc IH] using universal_newlines_ind.
  - reflexivity.
  - rewrite universal_newlines_crlf. exact IH.
  - rewrite (universal_newlines_cr _ Hs). exact IH.
  - rewrite (universal_newlines_other _ _ Hc).
    cbn [lacks forallb]. now rewrite Hc.
Qed.

(** A text without a carriage return is read as it is stored. *)
Lemma universal_newlines_id (s : str) :
  lacks CR s = true -> universal_newlines s = s.
Proof.
  induction s as [|c s IH]; [reflexivity|].
  cbn [lacks forallb]. intros H. apply andb_prop in H as [Hc Hs].
  apply negb_true_iff in Hc.
  rewrite (universal_newlines_other _ _ Hc). now rewrite (IH Hs).
Qed.

Lemma universal_newlines_idempotent (s : str) :
  universal_newlines (universal_newlines s) = universal_newlines s.
Proof. apply universal_newlines_id, universal_newlines_lacks_cr. Qed.

(** A text without a line end occurs in what is read exactly when it
    occurs in what is stored. *)
Lemma str_startswith_universal_newlines (p s : str) :
  lacks CR p = true -> lacks NL p = true ->
  str_startswith p (universal_newlines s) = str_startswith p s.
Proof.
  revert s; induction p as [|a p IH]; intros s Hcr Hnl; [reflexivity|].
  cbn [lacks forallb] in Hcr, Hnl.
  apply andb_prop in Hcr as [Hacr Hcr]. apply andb_prop in Hnl as [Hanl Hnl].
  apply negb_true_iff in Hacr, Hanl.
  destruct s as [|c s]; [reflexivity|].
  rewrite universal_newlines_cons.
  destruct (N.eqb c CR) eqn:Ec.
  - apply N.eqb_eq in Ec. subst c.
    cbn [str_startswith]. now rewrite Hacr, Hanl.
  - cbn [str_startswith]. now rewrite (IH s Hcr Hnl).
Qed.

Lemma str_contains_universal_newlines (p s : str) :
  lacks CR p = true -> lacks NL p = true ->
  str_contains p (universal_newlines s) = str_contains p s.
Proof.
  intros Hcr Hnl.
  destruct p as [|a p]; [now destruct (universal_newlines s), s|].
  assert (Hhead : forall c z, (N.eqb c CR || N.eqb c NL) = true ->
                    str_startswith (a :: p) (c :: z) = false).
  { intros c z Hc. cbn [str_startswith].
    cbn [lacks forallb] in Hcr, Hnl.
    apply andb_prop in Hcr as [Hacr _]. apply andb_prop in Hnl as [Hanl _].
    apply negb_true_iff in Hacr, Hanl.
    apply orb_prop in Hc as [Hc|Hc]; apply N.eqb_eq in Hc; subst c.
    - now rewrite Hacr.
    - now rewrite Hanl. }
  induction s as [|s IH|s Hs IH|c s Hc IH] using universal_newlines_ind.
  - reflexivity.
  - rewrite universal_newlines_crlf.
    change (str_contains (a :: p) (NL :: universal_newlines s))
      with (str_startswith (a :: p) (NL :: universal_newlines s)
            || str_contains (a :: p) (universal_newlines s)).
    change (str_contains (a :: p) (CR :: NL :: s))
      with (str_startswith (a :: p) (CR :: NL :: s)
            || (str_startswith (a :: p) (NL :: s) || str_contains (a :: p) s)).
    rewrite !Hhead by reflexivity. exact IH.
  - rewrite (universal_newlines_cr _ Hs).
    change (str_contains (a :: p) (NL :: universal_newlines s))
      with (str_startswith (a :: p) (NL :: universal_newlines s)
            || str_contains (a :: p) (universal_newlines s)).
    change (str_contains (a :: p) (CR :: s))
      with (str_startswith (a :: p) (CR :: s) || str_contains (a :: p) s).
    rewrite !Hhead by reflexivity. exact IH.
  - rewrite (universal_newlines_other _ _ Hc).
    change (str_contains (a :: p) (c :: universal_newlines s))
      with (str_startswith (a :: p) (c :: universal_newlines s)
            || str_contains (a :: p) (universal_newlines s)).
    change (str_contains (a :: p) (c :: s))
      with (str_startswith (a :: p) (c :: s) || str_contains (a :: p) s).
    rewrite IH. f_equal.
    rewrite <- (universal_newlines_other _ _ Hc).
    now apply str_startswith_universal_newlines.
Qed.

Lemma str_contains_key_read (s : str) :
  str_contains OCR_KEY (universal_newlines s) = str_contains OCR_KEY s.
Proof. now apply str_contains_universal_newlines. Qed.

(** ** [process_markdown_file] *)

Lemma fair_nil (w : World) : fair w -> as_completed w [] = [].
Proof.
  intros Hfair. apply Permutation_nil. symmetry. apply Hfair.
Qed.

Lemma concat_all_absent (texts : list (option str)) :
  Forall (fun t => t = None) texts ->
  concat (List.map text_or_empty texts) = [].
Proof.
  induction 1 as [|t texts Ht _ IH]; [reflexivity|].
  subst t. exact IH.
Qed.

Lemma concat_successes (texts : list (option str)) :
  concat (List.map text_or_empty texts) = concat (omap id texts).
Proof.
  induction texts as [|[t|] texts IH]; cbn; [reflexivity| |exact IH].
  now rewrite IH.
Qed.

(** C1. A document that contains the marker [OCR:] yields no link when
    the overwrite flag is off, and processing it returns the vault as it
    was: same contents, no write. *)
Theorem marked_document_untouched (cfg : Config) (w : World) (v : Vault)
    (md_file content : str) :
  fair w ->
  OVERWRITE_OCR cfg = false ->
  files v !! md_file = Some content ->
  str_contains OCR_KEY content = true ->
  extract_image_links cfg v md_file false = Ok []
  /\ process_markdown_file cfg w v md_file = Ok v.
Proof.
  intros Hfair Hover Hfile Hmark.
  assert (Hlinks : extract_image_links cfg v md_file false = Ok []).
  { unfold extract_image_links, read_file. rewrite Hfile. cbn.
    now rewrite str_contains_key_read, Hmark. }
  split; [exact Hlinks|].
  unfold process_markdown_file. rewrite Hover, Hlinks. cbn.
  now rewrite (fair_nil w Hfair).
Qed.

Lemma missing_world_fair : fair missing_world.
Proof.
  intros results. cbn. symmetry. apply Permutation_rev.
Qed.

Lemma marked_document_untouched_witness :
  process_markdown_file example_config missing_world
    (vault_of trip_md marked_document) trip_md
  = Ok (vault_of trip_md marked_document).
Proof.
  exact (proj2 (marked_document_untouched example_config missing_world
           (vault_of trip_md marked_document) trip_md marked_document
           missing_world_fair eq_refl eq_refl eq_refl)).
Defined.

(** C7. Attachments whose recognition fails contribute nothing and raise
    nothing: processing goes on to join the texts of the others.  When
    the recognition of every attachment of a document fails, the joined
    text is empty and processing returns the vault as it was: same
    contents, no write. *)
Theorem failed_recognition_leaves_document (cfg : Config) (w : World)
    (v : Vault) (md_file : str) (image_links : list str) :
  fair w ->
  extract_image_links cfg v md_file (OVERWRITE_OCR cfg) = Ok image_links ->
  let ocr_texts :=
    as_completed w
      (List.map
         (fun link => perform_ocr cfg w (find_linked_attachment cfg w md_file link))
         image_links) in
  process_markdown_file cfg w v md_file
  = match concat (omap id ocr_texts) with
    | [] => Ok v
    | _ :: _ => update_markdown_file v md_file (concat (omap id ocr_texts))
    end
  /\ (Forall
        (fun link =>
           perform_ocr cfg w (find_linked_attachment cfg w md_file link) = None)
        image_links ->
      concat (List.map text_or_empty ocr_texts) = []
      /\ process_markdown_file cfg w v md_file = Ok v).
Proof.
  intros Hfair Hlinks ocr_texts.
  assert (Hrun : process_markdown_file cfg w v md_file
                 = match concat (List.map text_or_empty ocr_texts) with
                   | [] => Ok v
                   | _ :: _ =>
                       update_markdown_file v md_file
                         (concat (List.map text_or_empty ocr_texts))
                   end).
  { unfold process_markdown_file. now rewrite Hlinks. }
  split.
  - now rewrite Hrun, concat_successes.
  - intros Hfail.
    assert (Hempty : concat (List.map text_or_empty ocr_texts) = []).
    { apply concat_all_absent.
      eapply Permutation_Forall; [symmetry; apply Hfair|].
      apply Forall_map. exact Hfail. }
    split; [exact Hempty|]. now rewrite Hrun, Hempty.
Qed.

Lemma failed_recognition_leaves_document_witness :
  process_markdown_file example_config missing_world
    (vault_of trip_md plain_document) trip_md
  = Ok (vault_of trip_md plain_document).
Proof.
  refine (proj2 (proj2 (failed_recognition_leaves_document example_config
            missing_world (vault_of trip_md plain_document) trip_md
            [of_string "photo.png"] missing_world_fair eq_refl) _)).
  repeat constructor.
Defined.

(** ** The front matter pattern *)

Lemma str_partition_inv (p s before after : str) :
  str_partition p s = Some (before, after) -> s = before ++ p ++ after.
Proof.
  revert before; induction s as [|c s IH]; intros before H.
  - cbn in H. destruct (str_startswith p []) eqn:E; [|discriminate].
    injection H as <- <-. cbn. now apply str_startswith_inv.
  - cbn [str_partition] in H.
    destruct (str_startswith p (c :: s)) eqn:E.
    + injection H as <- <-. cbn. now apply str_startswith_inv.
    + destruct (str_partition p s) as [[b a]|]; [|discriminate].
      injection H as <- <-. cbn. f_equal. now apply IH.
Qed.

Lemma str_partition_first (a : char) (p x rest : str) :
  forallb (fun c => negb (N.eqb c a)) x = true ->
  str_partition (a :: p) (x ++ (a :: p) ++ rest) = Some (x, rest).
Proof.
  intros Hx. induction x as [|c x IH].
  - cbn [app str_partition]. destruct rest as [|r rest'].
    + rewrite app_nil_r.
      pose proof (str_startswith_app (a :: p) []) as E.
      rewrite app_nil_r in E.
      assert (drop (length (a :: p)) (a :: p) = []) as ->
        by apply drop_all.
      destruct p; cbn [str_partition]; now rewrite E.
    + change ((a :: p) ++ r :: rest') with (a :: (p ++ r :: rest')).
      cbn [str_partition].
      change (a :: (p ++ r :: rest')) with ((a :: p) ++ r :: rest').
      now rewrite str_startswith_app, drop_app_length.
  - cbn [forallb] in Hx. apply andb_prop in Hx as [Hc Hx].
    change ((c :: x) ++ (a :: p) ++ rest) with (c :: (x ++ (a :: p) ++ rest)).
    cbn [str_partition str_startswith].
    rewrite (N.eqb_sym a c). apply negb_true_iff in Hc. rewrite Hc.
    cbn [andb]. now rewrite (IH Hx).
Qed.

Lemma front_matter_search_inv (content front_matter after : str) :
  front_matter_search content = Some (front_matter, after) ->
  content = FM_OPEN ++ front_matter ++ FM_CLOSE ++ after.
Proof.
  unfold front_matter_search.
  destruct (str_startswith FM_OPEN content) eqn:E; [|discriminate].
  intros H. apply str_partition_inv in H.
  rewrite (str_startswith_inv _ _ E). now rewrite H.
Qed.

Lemma front_matter_search_block (front_matter after : str) :
  forallb not_newline front_matter = true ->
  front_matter_search (FM_OPEN ++ front_matter ++ FM_CLOSE ++ after)
  = Some (front_matter, after).
Proof.
  intros Hnl. unfold front_matter_search.
  rewrite str_startswith_app, drop_app_length.
  now apply (str_partition_first NL (of_string "---")).
Qed.

(** ** [update_markdown_file] on a document without a block *)

(** C9. A document in whose text, as read, the front matter pattern
    finds nothing: the update writes the file once, and afterwards the
    file holds a block with the field [OCR] and the text between double
    quotes, a line break, and the text of the document as it was read,
    that is with every carriage-return line end turned into a line
    feed.  A document without a carriage return follows the block
    unchanged.  No other file changes.  For a text on one line without
    a carriage return, as cleaning gives, the next reading finds the
    pattern on exactly that block. *)
Theorem update_prepends_block (v : Vault) (md_file stored ocr_text : str) :
  files v !! md_file = Some stored ->
  front_matter_search (universal_newlines stored) = None ->
  let block :=
    FM_OPEN ++ OCR_FIELD_OPEN ++ ocr_text ++ [DQUOTE] ++ FM_CLOSE ++ [NL] in
  exists v',
    update_markdown_file v md_file ocr_text = Ok v'
    /\ files v' !! md_file = Some (block ++ universal_newlines stored)
    /\ (lacks CR stored = true ->
        files v' !! md_file = Some (block ++ stored))
    /\ (forall other, other <> md_file ->
                      files v' !! other = files v !! other)
    /\ writes v' = md_file :: writes v
    /\ (forallb not_newline ocr_text = true ->
        lacks CR ocr_text = true ->
        read_file v' md_file = Ok (block ++ universal_newlines stored)
        /\ front_matter_search (block ++ universal_newlines stored)
           = Some (OCR_FIELD_OPEN ++ ocr_text ++ [DQUOTE],
                   NL :: universal_newlines stored)).
Proof.
  intros Hfile Hnone block.
  exists (write_file v md_file (block ++ universal_newlines stored)).
  assert (Hheld : files (write_file v md_file
                           (block ++ universal_newlines stored)) !! md_file
                  = Some (block ++ universal_newlines stored))
    by (cbn; apply lookup_insert_eq).
  split; [|split; [|split; [|split; [|split]]]].
  - unfold update_markdown_file, read_file. rewrite Hfile.
    cbn [mbind result_bind]. unfold updated_content. rewrite Hnone.
    cbn [mbind result_bind]. subst block. now rewrite <- !app_assoc.
  - exact Hheld.
  - intros Hcr. now rewrite Hheld, (universal_newlines_id _ Hcr).
  - intros other Hother. cbn. apply lookup_insert_ne. congruence.
  - reflexivity.
  - intros Hnl Hcr. split.
    + unfold read_file. rewrite Hheld. f_equal.
      apply universal_newlines_id. subst block.
      rewrite !lacks_app, Hcr, universal_newlines_lacks_cr. reflexivity.
    + subst block.
      replace ((FM_OPEN ++ OCR_FIELD_OPEN ++ ocr_text ++ [DQUOTE]
                ++ FM_CLOSE ++ [NL]) ++ universal_newlines stored)
        with (FM_OPEN ++ (OCR_FIELD_OPEN ++ ocr_text ++ [DQUOTE])
              ++ FM_CLOSE ++ NL :: universal_newlines stored)
        by (now rewrite <- !app_assoc).
      apply front_matter_search_block.
      rewrite !forallb_app, Hnl. reflexivity.
Qed.

Lemma update_prepends_block_witness :
  exists v',
    update_markdown_file (vault_of trip_md plain_document) trip_md
      (of_string "HELLO") = Ok v'
    /\ files v' !! trip_md
       = Some (FM_OPEN ++ OCR_FIELD_OPEN ++ of_string "HELLO" ++ [DQUOTE]
               ++ FM_CLOSE ++ [NL] ++ plain_document).
Proof.
  destruct (update_prepends_block (vault_of trip_md plain_document)
              trip_md plain_document (of_string "HELLO") eq_refl eq_refl)
    as (v' & Hrun & _ & Hheld & _).
  exists v'. split; [exact Hrun|]. exact (Hheld eq_refl).
Defined.

(** C9, the claim as worded, at a document with Windows line ends: the
    text that follows the new block is not the document as it was
    stored; the carriage return is gone. *)
Lemma prepended_document_loses_carriage_return :
  front_matter_search (universal_newlines crlf_document) = None
  /\ exists v',
       update_markdown_file (vault_of trip_md crlf_document) trip_md
         (of_string "HELLO") = Ok v'
       /\ files v' !! trip_md
          = Some (FM_OPEN ++ OCR_FIELD_OPEN ++ of_string "HELLO" ++ [DQUOTE]
                  ++ FM_CLOSE ++ [NL] ++ of_string "one" ++ [NL]
                  ++ of_string "two")
       /\ forall block, files v' !! trip_md <> Some (block ++ crlf_document).
Proof.
  split; [reflexivity|].
  eexists. split; [reflexivity|]. split; [reflexivity|].
  intros block H. vm_compute in H. injection H as H.
  apply (f_equal (@rev N)) in H. rewrite rev_app_distr in H.
  vm_compute in H. discriminate H.
Qed.

(** ** Cleaning against its description *)

(** C3. On a recognised text with a carriage return inside, the cleaning
    of the source and the rules as described part: the source deletes
    the carriage return, the rules put a space in its place. *)
Theorem clean_deletes_carriage_return :
  clean (of_string "a" ++ [CR] ++ of_string "b") = of_string "ab"
  /\ spec_clean (of_string "a" ++ [CR] ++ of_string "b") = of_string "a b"
  /\ clean (of_string "a" ++ [CR] ++ of_string "b")
     <> spec_clean (of_string "a" ++ [CR] ++ of_string "b").
Proof.
  repeat split; try reflexivity. discriminate.
Qed.

(** ** Merging texts and blocks that hold a backslash *)

(** C2. Merging the cleaned form of a recognised backslash into a
    document without a block writes two backslashes between the quotes;
    merging the same text into the result leaves one: the second merge
    does not give the first one's document. *)
Theorem merge_twice_backslash :
  let once :=
    FM_OPEN ++ OCR_FIELD_OPEN ++ [BACKSLASH; BACKSLASH] ++ [DQUOTE]
    ++ FM_CLOSE ++ [NL] ++ of_string "body" in
  let twice :=
    FM_OPEN ++ OCR_FIELD_OPEN ++ [BACKSLASH] ++ [DQUOTE]
    ++ FM_CLOSE ++ [NL] ++ of_string "body" in
  backslash_text = [BACKSLASH; BACKSLASH]
  /\ updated_content (of_string "body") backslash_text = Ok once
  /\ updated_content once backslash_text = Ok twice
  /\ once <> twice.
Proof.
  repeat split; try reflexivity. discriminate.
Qed.

(** C8. In a block with the line [source: C:\temp] before a quoted OCR
    field, merging a text replaces the quoted value and also rewrites the
    other line: the backslash and the letter after it come back as a
    tab. *)
Theorem merge_rewrites_other_line :
  updated_content path_document (of_string "new")
  = Ok (FM_OPEN ++ of_string "source: C:" ++ [TAB] ++ of_string "emp" ++ [NL]
        ++ OCR_FIELD_OPEN ++ of_string "new" ++ [DQUOTE]
        ++ FM_CLOSE ++ [NL] ++ of_string "body")
  /\ front_matter_search path_document
     = Some (of_string "source: C:\temp" ++ [NL]
             ++ OCR_FIELD_OPEN ++ of_string "old" ++ [DQUOTE],
             NL :: of_string "body").
Proof.
  split; reflexivity.
Qed.

(** C10. In a block whose OCR field has the unquoted value [C:\temp],
    the field pattern matches nothing and the text is dropped, but the
    block is not written back as it was: the backslash and the letter
    after it come back as a tab. *)
Theorem unquoted_field_block_rewritten :
  front_matter_search unquoted_document
  = Some (of_string "OCR: C:\temp", NL :: of_string "body")
  /\ sub_ocr_field (of_string "new") 0 (of_string "OCR: C:\temp")
     = of_string "OCR: C:\temp"
  /\ updated_content unquoted_document (of_string "new")
     = Ok (FM_OPEN ++ of_string "OCR: C:" ++ [TAB] ++ of_string "emp"
           ++ FM_CLOSE ++ [NL] ++ of_string "body")
  /\ updated_content unquoted_document (of_string "new")
     <> Ok unquoted_document.
Proof.
  repeat split; try reflexivity. discriminate.
Qed.

(** ** Templates without a backslash *)

Lemma expand_template_plain (groups : list str) (template : str) :
  plain template = true -> expand_template groups 0 template = Ok template.
Proof.
  induction template as [|c t IH]; [reflexivity|].
  unfold plain, lacks. cbn [forallb]. intros H.
  apply andb_prop in H as [Hc Ht].
  cbn [expand_template]. apply negb_true_iff in Hc. rewrite Hc.
  rewrite (IH Ht). reflexivity.
Qed.

Lemma plain_app (x y : str) : plain (x ++ y) = plain x && plain y.
Proof. apply forallb_app. Qed.

(** ** The field pattern when it matches nothing *)

Lemma sub_ocr_field_no_match (ocr_text s : str) :
  (forall k, ocr_field_match (drop k s) = None) ->
  sub_ocr_field ocr_text 0 s = s.
Proof.
  induction s as [|c s IH]; intros Hno; [reflexivity|].
  cbn [sub_ocr_field]. pose proof (Hno 0) as H0. cbn [drop] in H0.
  rewrite H0. f_equal.
  apply IH. intros k. exact (Hno (S k)).
Qed.

(** Without a backslash in the block, a field pattern that matches
    nothing leaves the whole document as it was. *)
Lemma unmatched_field_keeps_plain_block
    (existing front_matter after ocr_text : str) :
  front_matter_search existing = Some (front_matter, after) ->
  str_contains OCR_KEY front_matter = true ->
  (forall k, ocr_field_match (drop k front_matter) = None) ->
  plain front_matter = true ->
  updated_content existing ocr_text = Ok existing.
Proof.
  intros Hfm Hkey Hno Hplain.
  unfold updated_content. rewrite Hfm, Hkey.
  rewrite (sub_ocr_field_no_match _ _ Hno).
  rewrite expand_template_plain
    by (rewrite !plain_app, Hplain; reflexivity).
  cbn. rewrite (front_matter_search_inv _ _ _ Hfm).
  now rewrite <- !app_assoc.
Qed.

(** ** Runs of characters *)

Lemma take_drop_while (f : char -> bool) (s : str) :
  take_while f s ++ drop_while f s = s.
Proof.
  induction s as [|c s IH]; [reflexivity|].
  cbn. destruct (f c); [cbn; now rewrite IH|reflexivity].
Qed.

Lemma take_while_all (f : char -> bool) (s : str) :
  forallb f (take_while f s) = true.
Proof.
  induction s as [|c s IH]; [reflexivity|].
  cbn. destruct (f c) eqn:E; [cbn; now rewrite E|reflexivity].
Qed.

Lemma take_while_app (f : char -> bool) (x y : str) :
  forallb f x = true -> take_while f (x ++ y) = x ++ take_while f y.
Proof.
  induction x as [|c x IH]; [reflexivity|].
  cbn. intros H; apply andb_prop in H as [Hc Hx].
  now rewrite Hc, (IH Hx).
Qed.

Lemma drop_while_app (f : char -> bool) (x y : str) :
  forallb f x = true -> drop_while f (x ++ y) = drop_while f y.
Proof.
  induction x as [|c x IH]; [reflexivity|].
  cbn. intros H; apply andb_prop in H as [Hc Hx].
  now rewrite Hc, (IH Hx).
Qed.

Lemma take_while_cut (f : char -> bool) (x y z : str) :
  forallb f x = false -> take_while f (x ++ y) = take_while f (x ++ z).
Proof.
  induction x as [|c x IH]; [discriminate|].
  cbn. destruct (f c); [|reflexivity].
  cbn. intros H. now rewrite (IH H).
Qed.

Lemma take_while_drop (f : char -> bool) (a b s : str) :
  take_while f s = a ++ b -> take_while f (drop (length a) s) = b.
Proof.
  revert s; induction a as [|c a IH]; intros s H; [exact H|].
  destruct s as [|d s]; [discriminate|].
  cbn in H. destruct (f d); [|discriminate].
  injection H as _ H. cbn. now apply IH.
Qed.

(** ** The last double quote of a line *)

Lemma rpartition_quote_none (s : str) :
  rpartition_quote s = None <-> lacks DQUOTE s = true.
Proof.
  induction s as [|c s IH]; [easy|].
  cbn [rpartition_quote lacks forallb].
  destruct (rpartition_quote s) as [[b a]|].
  - split; [discriminate|].
    intros H. apply andb_prop in H as [_ H].
    apply IH in H. discriminate.
  - destruct (N.eqb c DQUOTE); cbn; split; try easy.
    intros _. now apply IH.
Qed.

Lemma rpartition_quote_last (value trail : str) :
  lacks DQUOTE trail = true ->
  rpartition_quote (value ++ DQUOTE :: trail) = Some (value, trail).
Proof.
  intros Htrail. apply rpartition_quote_none in Htrail.
  induction value as [|c value IH].
  - cbn [app rpartition_quote]. now rewrite Htrail.
  - cbn [app rpartition_quote]. now rewrite IH.
Qed.

Lemma rpartition_quote_inv (s value trail : str) :
  rpartition_quote s = Some (value, trail) ->
  s = value ++ DQUOTE :: trail /\ lacks DQUOTE trail = true.
Proof.
  revert value; induction s as [|c s IH]; intros value H; [discriminate|].
  cbn [rpartition_quote] in H.
  destruct (rpartition_quote s) as [[b a]|] eqn:E.
  - injection H as <- <-. destruct (IH b eq_refl) as [-> Ha]. now split.
  - destruct (N.eqb c DQUOTE) eqn:Ec; [|discriminate].
    injection H as <- <-. apply N.eqb_eq in Ec. subst c.
    split; [reflexivity|]. now apply rpartition_quote_none.
Qed.

(** ** One attempt of the field pattern *)

Lemma is_space_not_quote (ws : str) :
  forallb is_space ws = true -> lacks DQUOTE ws = true.
Proof.
  induction ws as [|c ws IH]; [reflexivity|].
  cbn [forallb lacks]. intros H; apply andb_prop in H as [Hc Hws].
  fold (lacks DQUOTE ws). rewrite (IH Hws), andb_true_r.
  destruct (N.eqb c DQUOTE) eqn:E; [|reflexivity].
  apply N.eqb_eq in E. subst c. discriminate.
Qed.

(** After the key, white space and an opening quote, the attempt depends
    only on the last double quote of the line that follows. *)
Lemma ocr_field_match_shape (ws rest : str) :
  forallb is_space ws = true ->
  ocr_field_match (OCR_KEY ++ ws ++ DQUOTE :: rest)
  = match rpartition_quote (take_while not_newline rest) with
    | Some (value, _) =>
        Some (OCR_KEY ++ ws ++ [DQUOTE],
              length OCR_KEY + length ws + 1 + length value + 1)
    | None => None
    end.
Proof.
  intros Hws. unfold ocr_field_match.
  rewrite str_startswith_app, drop_app_length.
  rewrite (take_while_app _ _ _ Hws), (drop_while_app _ _ _ Hws).
  cbn [take_while drop_while is_space]. 
  change (is_space DQUOTE) with false. cbn iota.
  rewrite N.eqb_refl, app_nil_r. reflexivity.
Qed.

Lemma ocr_field_match_inv (s group1 : str) (len : nat) :
  ocr_field_match s = Some (group1, len) ->
  exists ws rest value trail,
    s = OCR_KEY ++ ws ++ DQUOTE :: rest
    /\ forallb is_space ws = true
    /\ take_while not_newline rest = value ++ DQUOTE :: trail
    /\ lacks DQUOTE trail = true
    /\ group1 = OCR_KEY ++ ws ++ [DQUOTE]
    /\ len = length OCR_KEY + length ws + 1 + length value + 1.
Proof.
  unfold ocr_field_match.
  destruct (str_startswith OCR_KEY s) eqn:Ekey; [|discriminate].
  apply str_startswith_inv in Ekey.
  set (s1 := drop (length OCR_KEY) s) in *.
  pose proof (take_drop_while is_space s1) as Hsplit.
  destruct (drop_while is_space s1) as [|q s2] eqn:Edrop; [discriminate|].
  destruct (N.eqb q DQUOTE) eqn:Eq; [|discriminate].
  apply N.eqb_eq in Eq. subst q.
  destruct (rpartition_quote (take_while not_newline s2))
    as [[value trail]|] eqn:Eline; [|discriminate].
  intros H. injection H as <- <-.
  apply rpartition_quote_inv in Eline as [Hline Htrail].
  exists (take_while is_space s1), s2, value, trail.
  repeat split; try assumption; try reflexivity.
  - now rewrite Hsplit.
  - apply take_while_all.
Qed.

Lemma ocr_field_match_other (c : char) (s : str) :
  N.eqb c O_CHAR = false -> ocr_field_match (c :: s) = None.
Proof.
  intros Hc. unfold ocr_field_match. cbn [OCR_KEY str_startswith].
  fold O_CHAR. now rewrite (N.eqb_sym O_CHAR c), Hc.
Qed.

(** ** The substitution of the field pattern *)

Section Substitution.

Variable ocr_text : str.

Lemma sub_ocr_field_skip (k : nat) (s : str) :
  sub_ocr_field ocr_text k s = sub_ocr_field ocr_text 0 (drop k s).
Proof.
  revert k; induction s as [|c s IH]; intros [|k]; try reflexivity.
  cbn [sub_ocr_field drop]. apply IH.
Qed.

Lemma sub_ocr_field_unmatched (c : char) (s : str) :
  ocr_field_match (c :: s) = None ->
  sub_ocr_field ocr_text 0 (c :: s) = c :: sub_ocr_field ocr_text 0 s.
Proof.
  intros H. cbn [sub_ocr_field]. now rewrite H.
Qed.

Lemma sub_ocr_field_matched (ws rest value trail : str) :
  forallb is_space ws = true ->
  take_while not_newline rest = value ++ DQUOTE :: trail ->
  lacks DQUOTE trail = true ->
  sub_ocr_field ocr_text 0 (OCR_KEY ++ ws ++ DQUOTE :: rest)
  = OCR_KEY ++ ws ++ DQUOTE :: ocr_text ++ DQUOTE
    :: sub_ocr_field ocr_text 0 (drop (length value + 1) rest).
Proof.
  intros Hws Hline Htrail.
  pose proof (ocr_field_match_shape ws rest Hws) as Hm.
  rewrite Hline, (rpartition_quote_last _ _ Htrail) in Hm.
  assert (Htail : forall k,
             k = length OCR_KEY + length ws + 1 + length value + 1 - 1 ->
             sub_ocr_field ocr_text k (skipn 1 OCR_KEY ++ ws ++ DQUOTE :: rest)
             = sub_ocr_field ocr_text 0 (drop (length value + 1) rest)).
  { intros k ->. rewrite sub_ocr_field_skip.
    apply (f_equal (sub_ocr_field ocr_text 0)).
    change (skipn 1 OCR_KEY ++ ws ++ DQUOTE :: rest)
      with (skipn 1 OCR_KEY ++ ws ++ [DQUOTE] ++ rest).
    rewrite !app_assoc.
    replace (length OCR_KEY + length ws + 1 + length value + 1 - 1)
      with (length ((skipn 1 OCR_KEY ++ ws) ++ [DQUOTE]) + (length value + 1))
      by (rewrite !length_app; cbn; lia).
    apply drop_app_add. }
  change (OCR_KEY ++ ws ++ DQUOTE :: rest)
    with (O_CHAR :: (skipn 1 OCR_KEY ++ ws ++ DQUOTE :: rest)) in *.
  cbn [sub_ocr_field]. rewrite Hm, (Htail _ eq_refl).
  rewrite <- !app_assoc. reflexivity.
Qed.

(** The scan either copies a character at which the pattern fails or
    rewrites a match and goes on after it; properties of the
    substitution are proved along these two steps. *)
Lemma sub_ocr_field_ind (Q : str -> str -> Prop) :
  Q [] [] ->
  (forall c s,
      ocr_field_match (c :: s) = None ->
      Q s (sub_ocr_field ocr_text 0 s) ->
      Q (c :: s) (c :: sub_ocr_field ocr_text 0 s)) ->
  (forall ws rest value trail,
      forallb is_space ws = true ->
      take_while not_newline rest = value ++ DQUOTE :: trail ->
      lacks DQUOTE trail = true ->
      Q (drop (length value + 1) rest)
        (sub_ocr_field ocr_text 0 (drop (length value + 1) rest)) ->
      Q (OCR_KEY ++ ws ++ DQUOTE :: rest)
        (OCR_KEY ++ ws ++ DQUOTE :: ocr_text ++ DQUOTE
         :: sub_ocr_field ocr_text 0 (drop (length value + 1) rest))) ->
  forall s, Q s (sub_ocr_field ocr_text 0 s).
Proof.
  intros Hnil Hcopy Hmatch s.
  remember (length s) as n eqn:Hn.
  revert s Hn. induction n as [n IH] using lt_wf_ind. intros s Hn.
  destruct s as [|c s]; [exact Hnil|].
  destruct (ocr_field_match (c :: s)) as [[group1 len]|] eqn:Em.
  - destruct (ocr_field_match_inv _ _ _ Em)
      as (ws & rest & value & trail & Hs & Hws & Hline & Htrail & _ & _).
    rewrite Hs, (sub_ocr_field_matched ws rest value trail Hws Hline Htrail).
    apply (Hmatch ws rest value trail Hws Hline Htrail).
    apply (IH (length (drop (length value + 1) rest))); [|reflexivity].
    subst n. rewrite Hs, length_drop, !length_app. cbn. lia.
  - rewrite (sub_ocr_field_unmatched c s Em).
    apply Hcopy; [exact Em|].
    apply (IH (length s)); [subst n; cbn; lia|reflexivity].
Qed.

Lemma sub_ocr_field_other (c : char) (s : str) :
  N.eqb c O_CHAR = false ->
  sub_ocr_field ocr_text 0 (c :: s) = c :: sub_ocr_field ocr_text 0 s.
Proof.
  intros Hc. apply sub_ocr_field_unmatched.
  now apply ocr_field_match_other.
Qed.

Lemma sub_ocr_field_app_other (x z : str) :
  lacks O_CHAR x = true ->
  sub_ocr_field ocr_text 0 (x ++ z) = x ++ sub_ocr_field ocr_text 0 z.
Proof.
  induction x as [|c x IH]; [reflexivity|].
  cbn [lacks forallb]. intros H; apply andb_prop in H as [Hc Hx].
  apply negb_true_iff in Hc.
  cbn [app]. now rewrite (sub_ocr_field_other _ _ Hc), (IH Hx).
Qed.

(** The output starts with the character the input starts with. *)
Lemma sub_ocr_field_head (c : char) (s : str) :
  exists o, sub_ocr_field ocr_text 0 (c :: s) = c :: o.
Proof.
  destruct (ocr_field_match (c :: s)) as [[group1 len]|] eqn:Em.
  - destruct (ocr_field_match_inv _ _ _ Em)
      as (ws & rest & value & trail & Hs & Hws & Hline & Htrail & _ & _).
    rewrite Hs, (sub_ocr_field_matched ws rest value trail Hws Hline Htrail).
    cbn [OCR_KEY app] in Hs |- *. injection Hs as -> _. eauto.
  - rewrite (sub_ocr_field_unmatched _ _ Em). eauto.
Qed.

Lemma sub_ocr_field_prefix_inv (pre s out : str) :
  lacks O_CHAR pre = true ->
  sub_ocr_field ocr_text 0 s = pre ++ out ->
  exists s', s = pre ++ s' /\ sub_ocr_field ocr_text 0 s' = out.
Proof.
  revert s; induction pre as [|a pre IH]; intros s Hpre H.
  - now exists s.
  - cbn [lacks forallb] in Hpre. apply andb_prop in Hpre as [Ha Hpre].
    apply negb_true_iff in Ha.
    destruct s as [|c s]; [discriminate|].
    destruct (sub_ocr_field_head c s) as [o Ho].
    pose proof H as H'. rewrite Ho in H'. cbn [app] in H'.
    injection H' as -> _.
    rewrite (sub_ocr_field_other _ _ Ha) in H. cbn [app] in H.
    injection H as H.
    destruct (IH s Hpre H) as (s' & -> & Hs').
    now exists s'.
Qed.

Lemma str_startswith_sub (q s : str) :
  lacks O_CHAR q = true ->
  str_startswith q (sub_ocr_field ocr_text 0 s) = str_startswith q s.
Proof.
  revert s; induction q as [|a q IH]; intros s Hq; [reflexivity|].
  cbn [lacks forallb] in Hq. apply andb_prop in Hq as [Ha Hq].
  apply negb_true_iff in Ha.
  destruct s as [|c s]; [reflexivity|].
  destruct (sub_ocr_field_head c s) as [o Ho]. rewrite Ho.
  cbn [str_startswith].
  destruct (N.eqb a c) eqn:Eac; [|reflexivity].
  apply N.eqb_eq in Eac. subst c.
  rewrite (sub_ocr_field_other _ _ Ha) in Ho. injection Ho as <-.
  cbn [andb]. now apply IH.
Qed.

(** A first line without a double quote comes out as it went in. *)
Lemma sub_ocr_field_first_line (s : str) :
  lacks DQUOTE (take_while not_newline s) = true ->
  take_while not_newline (sub_ocr_field ocr_text 0 s)
  = take_while not_newline s.
Proof.
  induction s as [|c s IH]; [reflexivity|]. intros Hline.
  destruct (ocr_field_match (c :: s)) as [[group1 len]|] eqn:Em.
  - destruct (ocr_field_match_inv _ _ _ Em)
      as (ws & rest & value & trail & Hs & Hws & Hl & Htrail & _ & _).
    rewrite Hs in Hline |- *.
    rewrite (sub_ocr_field_matched ws rest value trail Hws Hl Htrail).
    rewrite !(take_while_app not_newline OCR_KEY) in * by reflexivity.
    f_equal.
    destruct (forallb not_newline ws) eqn:Enl.
    + rewrite (take_while_app _ _ _ Enl) in Hline.
      rewrite !lacks_app in Hline. cbn in Hline.
      now rewrite andb_false_r in Hline.
    + now apply take_while_cut.
  - rewrite (sub_ocr_field_unmatched _ _ Em).
    cbn [take_while] in *. destruct (not_newline c); [|reflexivity].
    cbn [lacks forallb] in Hline. apply andb_prop in Hline as [_ Hline].
    now rewrite (IH Hline).
Qed.

Lemma is_space_not_O (ws : str) :
  forallb is_space ws = true -> lacks O_CHAR ws = true.
Proof.
  induction ws as [|c ws IH]; [reflexivity|].
  cbn [forallb lacks]. intros H; apply andb_prop in H as [Hc Hws].
  fold (lacks O_CHAR ws). rewrite (IH Hws), andb_true_r.
  destruct (N.eqb c O_CHAR) eqn:E; [|reflexivity].
  apply N.eqb_eq in E. subst c. discriminate.
Qed.

(** Where the pattern fails on the input it fails on the output. *)
Lemma ocr_field_match_sub_none (c : char) (s : str) :
  ocr_field_match (c :: s) = None ->
  ocr_field_match (c :: sub_ocr_field ocr_text 0 s) = None.
Proof.
  intros Hnone.
  destruct (ocr_field_match (c :: sub_ocr_field ocr_text 0 s))
    as [[group1 len]|] eqn:Em; [exfalso|reflexivity].
  destruct (ocr_field_match_inv _ _ _ Em)
    as (ws & out & value & trail & Hs & Hws & Hline & Htrail & _ & _).
  cbn [OCR_KEY app] in Hs. injection Hs as Hc Hs.
  replace (67%N :: 82%N :: 58%N :: ws ++ DQUOTE :: out)
    with (([67%N; 82%N; 58%N] ++ ws ++ [DQUOTE]) ++ out) in Hs
    by (now rewrite <- !app_assoc).
  apply sub_ocr_field_prefix_inv in Hs as (rest & -> & Hout).
  2:{ rewrite !lacks_app, (is_space_not_O _ Hws). reflexivity. }
  replace (c :: ([67%N; 82%N; 58%N] ++ ws ++ [DQUOTE]) ++ rest)
    with (OCR_KEY ++ ws ++ [DQUOTE] ++ rest) in Hnone
    by (subst c; now rewrite <- !app_assoc).
  cbn [app] in Hnone. rewrite (ocr_field_match_shape ws rest Hws) in Hnone.
  destruct (rpartition_quote (take_while not_newline rest))
    as [[v t]|] eqn:Er; [discriminate|].
  apply rpartition_quote_none in Er.
  pose proof (sub_ocr_field_first_line rest Er) as Hfirst.
  rewrite Hout, Hline in Hfirst. rewrite <- Hfirst in Er.
  rewrite lacks_app in Er. cbn in Er. now rewrite andb_false_r in Er.
Qed.

(** Substituting the same text again changes nothing. *)
Lemma sub_ocr_field_idempotent (s : str) :
  lacks NL ocr_text = true ->
  sub_ocr_field ocr_text 0 (sub_ocr_field ocr_text 0 s)
  = sub_ocr_field ocr_text 0 s.
Proof.
  intros Htext. revert s.
  apply (sub_ocr_field_ind
           (fun _ out => sub_ocr_field ocr_text 0 out = out)).
  - reflexivity.
  - intros c s Hnone IH.
    rewrite sub_ocr_field_unmatched by now apply ocr_field_match_sub_none.
    now rewrite IH.
  - intros ws rest value trail Hws Hline Htrail IH.
    set (out := sub_ocr_field ocr_text 0 (drop (length value + 1) rest)) in *.
    assert (Hrest : take_while not_newline (drop (length value + 1) rest) = trail).
    { replace (length value + 1) with (length (value ++ [DQUOTE]))
        by (rewrite length_app; reflexivity).
      apply take_while_drop. now rewrite <- app_assoc. }
    assert (Hout : take_while not_newline (ocr_text ++ DQUOTE :: out)
                   = ocr_text ++ DQUOTE :: trail).
    { rewrite take_while_app.
      - cbn [take_while not_newline]. change (negb (N.eqb DQUOTE NL)) with true.
        cbn iota. subst out.
        rewrite sub_ocr_field_first_line; rewrite Hrest; [reflexivity|assumption].
      - unfold lacks in Htext. exact Htext. }
    rewrite (sub_ocr_field_matched ws (ocr_text ++ DQUOTE :: out)
               ocr_text trail Hws Hout Htrail).
    replace (drop (length ocr_text + 1) (ocr_text ++ DQUOTE :: out)) with out.
    + now rewrite IH.
    + change (ocr_text ++ DQUOTE :: out) with (ocr_text ++ [DQUOTE] ++ out).
      rewrite (app_assoc ocr_text).
      symmetry. apply drop_app_length'.
      rewrite length_app. reflexivity.
Qed.

End Substitution.

(** ** What the substitution keeps *)

Lemma str_contains_prefix (p s : str) :
  str_startswith p s = true -> str_contains p s = true.
Proof.
  intros H. destruct s; cbn [str_contains]; now rewrite H.
Qed.

Lemma str_contains_lacks (a : char) (p s : str) :
  lacks a s = true -> str_contains (a :: p) s = false.
Proof.
  induction s as [|c s IH]; [reflexivity|].
  cbn [lacks forallb]. intros H; apply andb_prop in H as [Hc Hs].
  cbn [str_contains str_startswith].
  rewrite (N.eqb_sym a c). apply negb_true_iff in Hc.
  now rewrite Hc, (IH Hs).
Qed.

Lemma take_while_prefix (f : char -> bool) (a b s : str) :
  take_while f s = a ++ b -> s = a ++ drop (length a) s.
Proof.
  revert s; induction a as [|c a IH]; intros s H; [reflexivity|].
  destruct s as [|d s]; [discriminate|].
  cbn in H. destruct (f d); [|discriminate].
  injection H as -> H. cbn. f_equal. now apply IH.
Qed.

Lemma str_startswith_close_cons (c : char) (s : str) :
  str_startswith FM_CLOSE (c :: s)
  = N.eqb NL c && str_startswith [45%N; 45%N; 45%N] s.
Proof. reflexivity. Qed.

Lemma str_startswith_key_cons (c : char) (s : str) :
  str_startswith OCR_KEY (c :: s)
  = N.eqb O_CHAR c && str_startswith [67%N; 82%N; 58%N] s.
Proof. reflexivity. Qed.

Lemma str_startswith_close (c : char) (s z : str) :
  str_startswith FM_CLOSE (c :: s ++ NL :: z) = str_startswith FM_CLOSE (c :: s).
Proof.
  rewrite !str_startswith_close_cons. f_equal.
  now apply (str_startswith_sep NL [45%N; 45%N; 45%N]).
Qed.

Lemma str_startswith_key (sep c : char) (s z : str) :
  lacks sep [67%N; 82%N; 58%N] = true ->
  str_startswith OCR_KEY (c :: s ++ sep :: z) = str_startswith OCR_KEY (c :: s).
Proof.
  intros Hsep. rewrite !str_startswith_key_cons. f_equal.
  now apply (str_startswith_sep sep [67%N; 82%N; 58%N]).
Qed.

Lemma ocr_field_match_needs_key (s : str) :
  str_startswith OCR_KEY s = false -> ocr_field_match s = None.
Proof.
  intros H. unfold ocr_field_match. now rewrite H.
Qed.

Section Kept.

Variable ocr_text : str.
Hypothesis text_one_line : lacks NL ocr_text = true.

Lemma sub_ocr_field_plain (s : str) :
  plain ocr_text = true -> plain s = true ->
  plain (sub_ocr_field ocr_text 0 s) = true.
Proof.
  intros Htext. revert s.
  apply (sub_ocr_field_ind ocr_text
           (fun s out => plain s = true -> plain out = true)).
  - reflexivity.
  - intros c s _ IH. unfold plain, lacks. cbn [forallb].
    intros H; apply andb_prop in H as [Hc Hs].
    rewrite Hc. exact (IH Hs).
  - intros ws rest value trail _ _ _ IH H.
    rewrite !plain_app in H. apply andb_prop in H as [_ H].
    apply andb_prop in H as [Hws H].
    change (DQUOTE :: rest) with ([DQUOTE] ++ rest) in H.
    rewrite plain_app in H. apply andb_prop in H as [_ Hrest].
    assert (Hdrop : plain (drop (length value + 1) rest) = true).
    { rewrite <- (take_drop (length value + 1) rest), plain_app in Hrest.
      now apply andb_prop in Hrest as [_ Hrest]. }
    change (DQUOTE :: ocr_text ++ DQUOTE
            :: sub_ocr_field ocr_text 0 (drop (length value + 1) rest))
      with ([DQUOTE] ++ ocr_text ++ [DQUOTE]
            ++ sub_ocr_field ocr_text 0 (drop (length value + 1) rest)).
    rewrite !plain_app, Hws, Htext, (IH Hdrop). reflexivity.
Qed.

Lemma sub_ocr_field_lacks_cr (s : str) :
  lacks CR ocr_text = true -> lacks CR s = true ->
  lacks CR (sub_ocr_field ocr_text 0 s) = true.
Proof.
  intros Htext. revert s.
  apply (sub_ocr_field_ind ocr_text
           (fun s out => lacks CR s = true -> lacks CR out = true)).
  - reflexivity.
  - intros c s _ IH. cbn [lacks forallb].
    intros H; apply andb_prop in H as [Hc Hs].
    rewrite Hc. exact (IH Hs).
  - intros ws rest value trail _ _ _ IH H.
    rewrite !lacks_app in H. apply andb_prop in H as [_ H].
    apply andb_prop in H as [Hws H].
    change (DQUOTE :: rest) with ([DQUOTE] ++ rest) in H.
    rewrite lacks_app in H. apply andb_prop in H as [_ Hrest].
    assert (Hdrop : lacks CR (drop (length value + 1) rest) = true).
    { rewrite <- (take_drop (length value + 1) rest), lacks_app in Hrest.
      now apply andb_prop in Hrest as [_ Hrest]. }
    change (DQUOTE :: ocr_text ++ DQUOTE
            :: sub_ocr_field ocr_text 0 (drop (length value + 1) rest))
      with ([DQUOTE] ++ ocr_text ++ [DQUOTE]
            ++ sub_ocr_field ocr_text 0 (drop (length value + 1) rest)).
    rewrite !lacks_app, Hws, Htext, (IH Hdrop). reflexivity.
Qed.

Lemma sub_ocr_field_no_close (s : str) :
  str_contains FM_CLOSE s = false ->
  str_contains FM_CLOSE (sub_ocr_field ocr_text 0 s) = false.
Proof.
  revert s.
  apply (sub_ocr_field_ind ocr_text
           (fun s out => str_contains FM_CLOSE s = false ->
                         str_contains FM_CLOSE out = false)).
  - reflexivity.
  - intros c s _ IH H. cbn [str_contains] in H |- *.
    apply orb_false_elim in H as [Hhead Hs].
    rewrite (IH Hs), orb_false_r.
    rewrite str_startswith_close_cons in Hhead |- *.
    now rewrite (str_startswith_sub ocr_text [45%N; 45%N; 45%N]).
  - intros ws rest value trail _ Hline _ IH H.
    rewrite app_assoc in H |- *.
    rewrite (str_contains_sep DQUOTE) in H |- * by (reflexivity || discriminate).
    apply orb_false_elim in H as [Hhead Hrest]. rewrite Hhead. cbn [orb].
    rewrite (str_contains_sep DQUOTE) by (reflexivity || discriminate).
    rewrite (str_contains_lacks NL [45%N; 45%N; 45%N] _ text_one_line : str_contains FM_CLOSE ocr_text = false).
    cbn [orb].
    apply IH.
    replace (value ++ DQUOTE :: trail) with ((value ++ [DQUOTE]) ++ trail)
      in Hline by (now rewrite <- app_assoc).
    rewrite (take_while_prefix _ _ _ _ Hline), <- app_assoc in Hrest.
    cbn [app] in Hrest.
    rewrite (str_contains_sep DQUOTE) in Hrest by (reflexivity || discriminate).
    apply orb_false_elim in Hrest as [_ Hrest].
    rewrite length_app in Hrest. exact Hrest.
Qed.

Lemma sub_ocr_field_keeps_key (s : str) :
  str_contains OCR_KEY s = true ->
  str_contains OCR_KEY (sub_ocr_field ocr_text 0 s) = true.
Proof.
  revert s.
  apply (sub_ocr_field_ind ocr_text
           (fun s out => str_contains OCR_KEY s = true ->
                         str_contains OCR_KEY out = true)).
  - discriminate.
  - intros c s _ IH H. cbn [str_contains] in H |- *.
    apply orb_true_iff in H as [Hhead|Hs].
    + rewrite str_startswith_key_cons in Hhead |- *.
      rewrite (str_startswith_sub ocr_text [67%N; 82%N; 58%N]) by reflexivity.
      now rewrite Hhead.
    + now rewrite (IH Hs), orb_true_r.
  - intros ws rest value trail _ _ _ _ _.
    apply str_contains_prefix, str_startswith_app.
Qed.

(** The line of the field, as the script writes it, is a match as a
    whole. *)
Lemma sub_ocr_field_own_line :
  sub_ocr_field ocr_text 0 (OCR_FIELD_OPEN ++ ocr_text ++ [DQUOTE])
  = OCR_FIELD_OPEN ++ ocr_text ++ [DQUOTE].
Proof.
  change (OCR_FIELD_OPEN ++ ocr_text ++ [DQUOTE])
    with (OCR_KEY ++ [SPACE] ++ DQUOTE :: ocr_text ++ [DQUOTE]).
  rewrite (sub_ocr_field_matched ocr_text [SPACE] (ocr_text ++ [DQUOTE])
             ocr_text []); try reflexivity.
  - replace (drop (length ocr_text + 1) (ocr_text ++ [DQUOTE])) with (@nil N);
      [reflexivity|].
    symmetry. apply drop_ge. rewrite length_app. cbn. lia.
  - rewrite take_while_app; [reflexivity|exact text_one_line].
Qed.

Lemma sub_ocr_field_before (sep : char) (pre z : str) :
  lacks sep [67%N; 82%N; 58%N] = true ->
  str_contains OCR_KEY pre = false ->
  sub_ocr_field ocr_text 0 (pre ++ sep :: z)
  = pre ++ sub_ocr_field ocr_text 0 (sep :: z).
Proof.
  intros Hsep. induction pre as [|c pre IH]; intros Hpre; [reflexivity|].
  cbn [str_contains] in Hpre. apply orb_false_elim in Hpre as [Hhead Hpre].
  cbn [app]. rewrite sub_ocr_field_unmatched.
  - now rewrite (IH Hpre).
  - apply ocr_field_match_needs_key.
    now rewrite (str_startswith_key sep c pre z Hsep).
Qed.

End Kept.

(** ** Where the block ends *)

Lemma str_partition_close (front_matter after : str) :
  str_contains FM_CLOSE front_matter = false ->
  str_partition FM_CLOSE (front_matter ++ FM_CLOSE ++ after)
  = Some (front_matter, after).
Proof.
  induction front_matter as [|c fm IH]; intros Hno.
  - apply (str_partition_first NL [45%N; 45%N; 45%N] [] after). reflexivity.
  - cbn [str_contains] in Hno. apply orb_false_elim in Hno as [Hhead Hfm].
    cbn [app str_partition].
    change (fm ++ FM_CLOSE ++ after)
      with (fm ++ NL :: ([45%N; 45%N; 45%N] ++ after)).
    rewrite str_startswith_close, Hhead.
    change (fm ++ NL :: ([45%N; 45%N; 45%N] ++ after))
      with (fm ++ FM_CLOSE ++ after).
    now rewrite (IH Hfm).
Qed.

Lemma str_partition_close_inv (s front_matter after : str) :
  str_partition FM_CLOSE s = Some (front_matter, after) ->
  str_contains FM_CLOSE front_matter = false.
Proof.
  revert front_matter; induction s as [|c s IH]; intros fm H.
  - discriminate.
  - cbn [str_partition] in H.
    destruct (str_startswith FM_CLOSE (c :: s)) eqn:Ehead.
    + injection H as <- _. reflexivity.
    + destruct (str_partition FM_CLOSE s) as [[b a]|] eqn:Es; [|discriminate].
      injection H as <- <-.
      cbn [str_contains]. rewrite (IH b eq_refl), orb_false_r.
      apply str_partition_inv in Es. subst s.
      change (b ++ FM_CLOSE ++ a)
        with (b ++ NL :: ([45%N; 45%N; 45%N] ++ a)) in Ehead.
      now rewrite str_startswith_close in Ehead.
Qed.

Lemma front_matter_search_closed (front_matter after : str) :
  str_contains FM_CLOSE front_matter = false ->
  front_matter_search (FM_OPEN ++ front_matter ++ FM_CLOSE ++ after)
  = Some (front_matter, after).
Proof.
  intros Hno. unfold front_matter_search.
  rewrite str_startswith_app, drop_app_length.
  now apply str_partition_close.
Qed.

Lemma front_matter_search_no_close (content front_matter after : str) :
  front_matter_search content = Some (front_matter, after) ->
  str_contains FM_CLOSE front_matter = false.
Proof.
  unfold front_matter_search.
  destruct (str_startswith FM_OPEN content); [|discriminate].
  apply str_partition_close_inv.
Qed.

Lemma str_contains_close_app (x y : str) :
  str_contains FM_CLOSE x = false ->
  str_contains FM_CLOSE (x ++ NL :: y) = str_contains FM_CLOSE (NL :: y).
Proof.
  induction x as [|c x IH]; intros Hno; [reflexivity|].
  cbn [str_contains] in Hno. apply orb_false_elim in Hno as [Hhead Hx].
  cbn [app]. cbn [str_contains].
  rewrite str_startswith_close, Hhead. cbn [orb]. now apply IH.
Qed.

Lemma str_contains_app_r (p x y : str) :
  str_contains p y = true -> str_contains p (x ++ y) = true.
Proof.
  intros Hy. induction x as [|c x IH]; [exact Hy|].
  cbn [app str_contains]. now rewrite IH, orb_true_r.
Qed.


(** ** Merging without backslashes *)

(** With no backslash in the block and in the text, the replacement
    template stands for itself: the merge puts the updated block in the
    place of the old one. *)
Lemma updated_content_plain (front_matter after ocr_text : str) :
  str_contains FM_CLOSE front_matter = false ->
  plain front_matter = true ->
  plain ocr_text = true ->
  lacks NL ocr_text = true ->
  updated_content (FM_OPEN ++ front_matter ++ FM_CLOSE ++ after) ocr_text
  = Ok (FM_OPEN
        ++ (if str_contains OCR_KEY front_matter
            then sub_ocr_field ocr_text 0 front_matter
            else front_matter ++ [NL] ++ OCR_FIELD_OPEN ++ ocr_text ++ [DQUOTE])
        ++ FM_CLOSE ++ after).
Proof.
  intros Hclose Hfm Htext Hline. unfold updated_content.
  rewrite (front_matter_search_closed _ _ Hclose).
  rewrite expand_template_plain.
  - cbn. now rewrite <- !app_assoc.
  - rewrite !plain_app.
    destruct (str_contains OCR_KEY front_matter).
    + now rewrite (sub_ocr_field_plain ocr_text front_matter Htext Hfm).
    + rewrite !plain_app, Hfm, Htext. reflexivity.
Qed.

(** The same text merged twice gives what it gives merged once, as long
    as neither the text nor the block of the document holds a backslash
    and the text is on one line. *)
Lemma merge_idempotent_plain (existing ocr_text : str) :
  lacks NL ocr_text = true ->
  plain ocr_text = true ->
  (forall front_matter after,
      front_matter_search existing = Some (front_matter, after) ->
      plain front_matter = true) ->
  exists once,
    updated_content existing ocr_text = Ok once
    /\ updated_content once ocr_text = Ok once.
Proof.
  intros Hline Htext Hblock.
  set (field := OCR_FIELD_OPEN ++ ocr_text ++ [DQUOTE]).
  assert (Hfield_nl : lacks NL field = true)
    by (subst field; rewrite !lacks_app, Hline; reflexivity).
  assert (Hfield_close : str_contains FM_CLOSE field = false)
    by (apply (str_contains_lacks NL [45%N; 45%N; 45%N]); exact Hfield_nl).
  assert (Hfield_plain : plain field = true)
    by (subst field; rewrite !plain_app, Htext; reflexivity).
  assert (Hfield_key : str_contains OCR_KEY field = true)
    by (apply str_contains_prefix; reflexivity).
  assert (Hfield_sub : sub_ocr_field ocr_text 0 field = field)
    by (apply sub_ocr_field_own_line; exact Hline).
  assert (Hstable : forall fm after,
             str_contains FM_CLOSE fm = false -> plain fm = true ->
             str_contains OCR_KEY fm = true ->
             sub_ocr_field ocr_text 0 fm = fm ->
             updated_content (FM_OPEN ++ fm ++ FM_CLOSE ++ after) ocr_text
             = Ok (FM_OPEN ++ fm ++ FM_CLOSE ++ after)).
  { intros fm after Hc Hp Hk Hs.
    rewrite (updated_content_plain fm after ocr_text Hc Hp Htext Hline).
    now rewrite Hk, Hs. }
  destruct (front_matter_search existing) as [[fm after]|] eqn:Esearch.
  - pose proof (front_matter_search_no_close _ _ _ Esearch) as Hclose.
    pose proof (Hblock fm after eq_refl) as Hplain.
    rewrite (front_matter_search_inv _ _ _ Esearch).
    rewrite (updated_content_plain fm after ocr_text Hclose Hplain Htext Hline).
    eexists; split; [reflexivity|].
    destruct (str_contains OCR_KEY fm) eqn:Ekey.
    + apply Hstable.
      * now apply sub_ocr_field_no_close.
      * now apply sub_ocr_field_plain.
      * now apply sub_ocr_field_keeps_key.
      * now apply sub_ocr_field_idempotent.
    + change (fm ++ [NL] ++ OCR_FIELD_OPEN ++ ocr_text ++ [DQUOTE])
        with (fm ++ NL :: field).
      apply Hstable.
      * rewrite (str_contains_close_app _ _ Hclose).
        cbn [str_contains]. now rewrite Hfield_close.
      * change (fm ++ NL :: field) with (fm ++ [NL] ++ field).
        rewrite !plain_app, Hplain, Hfield_plain. reflexivity.
      * apply str_contains_app_r. cbn [str_contains].
        now rewrite Hfield_key, orb_true_r.
      * rewrite (sub_ocr_field_before ocr_text NL fm field eq_refl Ekey).
        now rewrite sub_ocr_field_other, Hfield_sub.
  - exists (FM_OPEN ++ field ++ FM_CLOSE ++ NL :: existing). split.
    + unfold updated_content. rewrite Esearch. subst field.
      now rewrite <- !app_assoc.
    + now apply Hstable.
Qed.


(** ** Cleaning, rule by rule *)

Lemma replace_scan_here (old new : str) (c : char) (s : str) :
  replace_scan old new 0 (c :: s)
  = if str_startswith old (c :: s)
    then new ++ replace_scan old new (length old - 1) s
    else c :: replace_scan old new 0 s.
Proof. reflexivity. Qed.

Lemma replace_scan_pairs (s : str) :
  replace_scan [SPACE; SPACE] [SPACE] 0 s = spec_pairs s.
Proof.
  remember (length s) as n eqn:Hn. revert s Hn.
  induction n as [n IH] using lt_wf_ind. intros s Hn.
  destruct s as [|a [|b s]]; [reflexivity| |].
  - cbn [replace_scan str_startswith spec_pairs].
    now rewrite andb_false_r.
  - rewrite replace_scan_here.
    change (str_startswith [SPACE; SPACE] (a :: b :: s))
      with (N.eqb SPACE a && (N.eqb SPACE b && true)).
    change (spec_pairs (a :: b :: s))
      with (if N.eqb a SPACE && N.eqb b SPACE
            then SPACE :: spec_pairs s else a :: spec_pairs (b :: s)).
    rewrite andb_true_r, (N.eqb_sym SPACE a), (N.eqb_sym SPACE b).
    destruct (N.eqb a SPACE && N.eqb b SPACE).
    + change (replace_scan [SPACE; SPACE] [SPACE]
                (length [SPACE; SPACE] - 1) (b :: s))
        with (replace_scan [SPACE; SPACE] [SPACE] 0 s).
      cbn [app]. f_equal.
      apply (IH (length s)); [subst n; cbn; lia|reflexivity].
    + f_equal. apply (IH (length (b :: s))); [subst n; cbn; lia|reflexivity].
Qed.

Lemma replace_scan_absent (a : char) (s : str) :
  lacks a s = true -> replace_scan [a] [] 0 s = s.
Proof.
  intros Hs. rewrite replace_scan_char.
  induction s as [|c s IH]; [reflexivity|].
  cbn [lacks forallb] in Hs. apply andb_prop in Hs as [Hc Hs].
  cbn [flat_map]. rewrite (N.eqb_sym a c).
  apply negb_true_iff in Hc. now rewrite Hc, (IH Hs).
Qed.

Lemma replace_scan_lacks (c : char) (old new : str) (k : nat) (s : str) :
  lacks c new = true -> lacks c s = true ->
  lacks c (replace_scan old new k s) = true.
Proof.
  intros Hnew. revert k; induction s as [|x s IH]; intros k Hs; [reflexivity|].
  cbn [lacks forallb] in Hs. apply andb_prop in Hs as [Hx Hs].
  cbn [replace_scan]. destruct k as [|k]; [|now apply IH].
  destruct (str_startswith old (x :: s)).
  - rewrite lacks_app, Hnew. now apply IH.
  - cbn [lacks forallb]. rewrite Hx. now apply IH.
Qed.

Lemma map_newlines_lacks (s : str) :
  lacks NL (List.map (fun c => if N.eqb c NL then SPACE else c) s) = true.
Proof.
  induction s as [|c s IH]; [reflexivity|].
  unfold lacks in *. cbn [List.map forallb].
  rewrite IH, andb_true_r.
  destruct (N.eqb c NL) eqn:E; [reflexivity|now rewrite E].
Qed.

(** The cleaned text is on one line. *)
Lemma clean_one_line (ocr_text : str) : lacks NL (clean ocr_text) = true.
Proof.
  unfold clean.
  do 5 (apply (replace_scan_lacks NL); [reflexivity|]).
  rewrite str_replace_char. apply map_newlines_lacks.
Qed.

(** So is every concatenation of cleaned texts. *)
Lemma aggregated_one_line (texts : list (option str)) :
  Forall (fun t => forall x, t = Some x -> exists raw, x = clean raw) texts ->
  lacks NL (concat (List.map text_or_empty texts)) = true.
Proof.
  induction 1 as [|t texts Ht _ IH]; [reflexivity|].
  cbn [List.map concat]. rewrite lacks_app, IH, andb_true_r.
  destruct t as [x|]; [|reflexivity].
  destruct (Ht x eq_refl) as [raw ->]. apply clean_one_line.
Qed.

(** Where the trimmed text holds no carriage return, the cleaning of the
    source is the cleaning the rules describe. *)
Lemma clean_matches_rules (raw : str) :
  lacks CR (str_strip raw) = true -> clean raw = spec_clean raw.
Proof.
  intros Hcr. unfold clean, spec_clean.
  change (spec_trim raw) with (str_strip raw).
  set (s := str_strip raw) in *.
  assert (Hnl : str_replace [NL] [SPACE] s = List.map spec_newlines s).
  { rewrite str_replace_char. clearbody s.
    induction s as [|c s IH]; [reflexivity|].
    cbn [lacks forallb] in Hcr. apply andb_prop in Hcr as [Hc Hs].
    cbn [List.map]. rewrite (IH Hs). f_equal.
    unfold spec_newlines. apply negb_true_iff in Hc. rewrite Hc.
    now rewrite orb_false_r. }
  assert (Hkeep : lacks CR (str_replace [NL] [SPACE] s) = true)
    by (apply replace_scan_lacks; [reflexivity|exact Hcr]).
  change (str_replace [CR] [] (str_replace [NL] [SPACE] s))
    with (replace_scan [CR] [] 0 (str_replace [NL] [SPACE] s)).
  rewrite (replace_scan_absent CR _ Hkeep), Hnl.
  rewrite (str_replace_char TAB SPACE).
  change (str_replace [SPACE; SPACE] [SPACE])
    with (replace_scan [SPACE; SPACE] [SPACE] 0).
  rewrite replace_scan_pairs, (str_replace_char DQUOTE SQUOTE).
  unfold str_replace. rewrite replace_scan_char.
  unfold spec_backslashes. apply flat_map_ext.
  intros c. rewrite (N.eqb_sym BACKSLASH c).
  destruct (N.eqb c BACKSLASH) eqn:E; [|reflexivity].
  apply N.eqb_eq in E. now subst c.
Qed.

(** ** The whole pass on one document *)

(** A document with one link and no block, in a world where every image
    reads [Hello world] with stray white space: the text is cleaned and the
    block is put in front of the document. *)
Example process_writes_block :
  process_markdown_file example_config
    (constant_world ([SPACE] ++ of_string "Hello" ++ [NL] ++ of_string "world" ++ [NL]))
    (vault_of trip_md plain_document) trip_md
  = Ok (write_file (vault_of trip_md plain_document) trip_md
          (FM_OPEN ++ OCR_FIELD_OPEN ++ of_string "Hello world" ++ [DQUOTE]
           ++ FM_CLOSE ++ [NL] ++ plain_document)).
Proof. reflexivity. Qed.

(** The same document when the image is missing, also after the retry:
    the engine is asked twice and nothing is written. *)
Example process_missing_image :
  find_linked_attachment example_config missing_world trip_md
    (of_string "photo.png")
  = of_string "Notes/Attachments/Trip.resources/photo.png"
  /\ perform_ocr example_config missing_world
       (of_string "Notes/Attachments/Trip.resources/photo.png") = None
  /\ writes (vault_of trip_md plain_document) = [].
Proof. repeat split. Qed.

(** ** The matchers are what backtracking gives on the patterns *)

Lemma rep_lazy_partition {A} (p : str) (G : str -> A) (s : str) :
  rep_lazy any_char
    (fun s' => if str_startswith p s' then Some (G s') else None) 0 s
  = match str_partition p s with
    | Some (_, after) => Some (G (p ++ after))
    | None => None
    end.
Proof.
  induction s as [|c s IH].
  - cbn [rep_lazy str_partition Nat.eqb].
    destruct (str_startswith p []) eqn:E; [|reflexivity].
    now rewrite <- (str_startswith_inv _ _ E).
  - cbn [rep_lazy str_partition Nat.eqb].
    destruct (str_startswith p (c :: s)) eqn:E.
    + now rewrite <- (str_startswith_inv _ _ E).
    + cbn [any_char Nat.pred]. rewrite IH.
      now destruct (str_partition p s) as [[b a]|].
Qed.

Lemma search_from_anchored (total : nat) (s : str) :
  length s < total -> search_from total FRONT_MATTER_RE s = None.
Proof.
  induction s as [|c s IH]; intros Hlt.
  - cbn. destruct total; [lia|reflexivity].
  - cbn [search_from]. unfold match_at, FRONT_MATTER_RE. cbn [run].
    replace (length (c :: s) =? total) with false
      by (symmetry; apply Nat.eqb_neq; lia).
    apply IH. cbn in Hlt. lia.
Qed.

(** The front matter pattern: [re.search] finds the match of
    [front_matter_search], at index 0, with the block as group 1. *)
Lemma front_matter_search_regex (content : str) :
  re_search FRONT_MATTER_RE content
  = match front_matter_search content with
    | Some (front_matter, after) =>
        Some (0, [front_matter], length content - length after)
    | None => None
    end.
Proof.
  unfold re_search.
  assert (Hhead : match_at (length content) FRONT_MATTER_RE content
                  = match front_matter_search content with
                    | Some (front_matter, after) =>
                        Some ([front_matter], length content - length after)
                    | None => None
                    end).
  { unfold match_at, FRONT_MATTER_RE, front_matter_search. cbn [run].
    rewrite Nat.eqb_refl.
    destruct (str_startswith FM_OPEN content); [|reflexivity].
    set (rest := drop (length FM_OPEN) content).
    rewrite (rep_lazy_partition FM_CLOSE
               (fun s' => ([] ++ [take (length rest - length s') rest],
                           length content - length (drop (length FM_CLOSE) s')))).
    destruct (str_partition FM_CLOSE rest) as [[fm after]|] eqn:E;
      [|reflexivity].
    apply str_partition_inv in E.
    rewrite drop_app_length. cbn [app]. do 3 f_equal.
    rewrite E at 2. apply take_app_length'.
    rewrite E, length_app. lia. }
  destruct content as [|c content].
  - cbn [search_from]. rewrite Hhead.
    now destruct (front_matter_search []) as [[fm after]|].
  - cbn [search_from]. rewrite Hhead.
    destruct (front_matter_search (c :: content)) as [[fm after]|].
    + now rewrite Nat.sub_diag.
    + apply search_from_anchored. cbn. lia.
Qed.

Lemma rep_greedy_all {A} (class : char -> bool) (k : str -> option A)
    (s : str) :
  (forall c s', class c = true -> k (c :: s') = None) ->
  rep_greedy class k 0 s = k (drop_while class s).
Proof.
  intros Hk. induction s as [|c s IH]; [reflexivity|].
  cbn [rep_greedy drop_while Nat.pred Nat.eqb].
  destruct (class c) eqn:Ec; [|reflexivity].
  rewrite IH. destruct (k (drop_while class s)); [reflexivity|].
  now apply Hk.
Qed.

Lemma rep_greedy_last_quote {A} (k : str -> option A) (G : str -> A)
    (s : str) :
  k [] = None ->
  (forall q s', k (q :: s') = if N.eqb q DQUOTE then Some (G s') else None) ->
  rep_greedy not_newline k 0 s
  = match rpartition_quote (take_while not_newline s) with
    | Some (_, trail) => Some (G (trail ++ drop_while not_newline s))
    | None => None
    end.
Proof.
  intros Hnil Hk. induction s as [|c s IH]; [exact Hnil|].
  cbn [rep_greedy take_while drop_while Nat.pred Nat.eqb].
  destruct (not_newline c) eqn:Ec.
  - rewrite IH. cbn [rpartition_quote].
    destruct (rpartition_quote (take_while not_newline s)) as [[b a]|];
      [reflexivity|].
    rewrite Hk. destruct (N.eqb c DQUOTE); [|reflexivity].
    now rewrite take_drop_while.
  - rewrite Hk. cbn [rpartition_quote].
    destruct (N.eqb c DQUOTE) eqn:Eq; [|reflexivity].
    apply N.eqb_eq in Eq. subst c. discriminate.
Qed.

(** The field pattern: at any index, the backtracking match is the one
    [ocr_field_match] computes, with the quote as group 2. *)
Lemma ocr_field_match_regex (total : nat) (s : str) :
  match_at total OCR_FIELD_RE s
  = match ocr_field_match s with
    | Some (group1, len) => Some ([group1; [DQUOTE]], len)
    | None => None
    end.
Proof.
  unfold match_at, OCR_FIELD_RE, ocr_field_match. cbn [run].
  destruct (str_startswith OCR_KEY s) eqn:Ekey; [|reflexivity].
  apply str_startswith_inv in Ekey.
  set (s1 := drop (length OCR_KEY) s) in *. clearbody s1.
  rewrite rep_greedy_all.
  2:{ intros c s' Hc. cbn [str_startswith].
      destruct (N.eqb DQUOTE c) eqn:E; [|reflexivity].
      apply N.eqb_eq in E. subst c. discriminate. }
  pose proof (take_drop_while is_space s1) as Hs1.
  destruct (drop_while is_space s1) as [|q s2] eqn:Edrop; [reflexivity|].
  cbn [str_startswith]. rewrite andb_true_r, (N.eqb_sym DQUOTE q).
  destruct (N.eqb q DQUOTE) eqn:Eq; [|reflexivity].
  apply N.eqb_eq in Eq. subst q.
  cbn [length drop app]. change (drop 0 s2) with s2.
  rewrite (rep_greedy_last_quote _
             (fun s' => ([take (length s - length s2) s;
                          take (length (DQUOTE :: s') - length s') (DQUOTE :: s')],
                         length s - length s'))).
  - destruct (rpartition_quote (take_while not_newline s2))
      as [[value trail]|] eqn:Eline; [|reflexivity].
    apply rpartition_quote_inv in Eline as [Hline _].
    pose proof (take_drop_while not_newline s2) as Hs2.
    rewrite Hline in Hs2.
    assert (Hs : s = (OCR_KEY ++ take_while is_space s1 ++ [DQUOTE]) ++ s2).
    { rewrite <- !app_assoc. cbn [app]. now rewrite Hs1. }
    f_equal. f_equal; [f_equal|].
    + rewrite Hs at 2. apply take_app_length'.
      rewrite Hs at 1. rewrite length_app. lia.
    + f_equal. cbn [length].
      replace (S (length (trail ++ drop_while not_newline s2))
               - length (trail ++ drop_while not_newline s2)) with 1 by lia.
      reflexivity.
    + rewrite Hs at 1. rewrite <- Hs2 at 1.
      rewrite !length_app. cbn [length]. lia.
  - reflexivity.
  - intros q s'. cbn [str_startswith length drop].
    rewrite andb_true_r, (N.eqb_sym DQUOTE q).
    destruct (N.eqb q DQUOTE) eqn:Eq; [|reflexivity].
    apply N.eqb_eq in Eq. now subst q.
Qed.

Lemma rep_lazy_ext {A} (class : char -> bool) (k1 k2 : str -> option A)
    (min : nat) (s : str) :
  (forall s', k1 s' = k2 s') ->
  rep_lazy class k1 min s = rep_lazy class k2 min s.
Proof.
  intros Hk. revert min; induction s as [|c s IH]; intros min.
  - cbn [rep_lazy]. now rewrite Hk.
  - cbn [rep_lazy]. rewrite Hk.
    destruct (if min =? 0 then k2 (c :: s) else None); [reflexivity|].
    destruct (class c); [apply IH|reflexivity].
Qed.

Lemma ci_startswith_length (p s : str) :
  ci_startswith p s = true -> length p <= length s.
Proof.
  revert s; induction p as [|a p IH]; intros [|b s] H; cbn in *;
    try lia; try discriminate.
  apply andb_prop in H as [_ H]. apply IH in H. lia.
Qed.

Lemma match_extension_bound (exts : list str) (s : str) (n : nat) :
  match_extension exts s = Some n ->
  n + length LINK_CLOSE <= length s.
Proof.
  induction exts as [|e exts IH]; [discriminate|].
  cbn [match_extension].
  destruct (ci_startswith e s && str_startswith LINK_CLOSE (drop (length e) s))
    eqn:E; [|exact IH].
  intros H. injection H as <-.
  apply andb_prop in E as [He Hclose].
  apply ci_startswith_length in He.
  apply str_startswith_inv in Hclose.
  apply (f_equal (@length N)) in Hclose.
  rewrite length_app, !length_drop in Hclose.
  cbn [LINK_CLOSE length] in *. lia.
Qed.

Lemma link_rest_bound (exts : list str) (s : str) (n : nat) :
  link_rest exts s = Some n -> n + length LINK_CLOSE <= length s.
Proof.
  revert n; induction s as [|c s IH]; intros n; cbn [link_rest].
  - destruct (match_extension exts []) eqn:E; [|discriminate].
    intros H. injection H as <-. now apply match_extension_bound in E.
  - destruct (match_extension exts (c :: s)) eqn:E.
    + intros H. injection H as <-. now apply match_extension_bound in E.
    + destruct (N.eqb c RBRACKET); [discriminate|].
      destruct (link_rest exts s) as [m|]; [|discriminate].
      intros H. injection H as <-. specialize (IH m eq_refl).
      cbn [length]. lia.
Qed.

Lemma alternation_run {A} (total : nat) (e : str) (exts : list str)
    (s : str) (caps : list str) (G : str -> list str -> A) :
  run total (alternation (e :: exts)) s caps
    (fun s' caps' =>
       if str_startswith LINK_CLOSE s' then Some (G s' caps') else None)
  = match match_extension (e :: exts) s with
    | Some n => Some (G (drop n s) caps)
    | None => None
    end.
Proof.
  revert e; induction exts as [|e' exts IH]; intros e.
  - cbn [alternation run match_extension].
    destruct (ci_startswith e s); [|reflexivity]. cbn [andb].
    now destruct (str_startswith LINK_CLOSE (drop (length e) s)).
  - change (alternation (e :: e' :: exts))
      with (Alt (LitI e) (alternation (e' :: exts))).
    cbn [run]. rewrite IH.
    change (match_extension (e :: e' :: exts) s)
      with (if ci_startswith e s
               && str_startswith LINK_CLOSE (drop (length e) s)
            then Some (length e) else match_extension (e' :: exts) s).
    destruct (ci_startswith e s); [|reflexivity]. cbn [andb].
    now destruct (str_startswith LINK_CLOSE (drop (length e) s)).
Qed.

Lemma rep_lazy_link {A} (exts : list str) (G : str -> A) (s : str) :
  rep_lazy not_rbracket
    (fun s' =>
       match match_extension exts s' with
       | Some n => Some (G (drop n s'))
       | None => None
       end) 0 s
  = match link_rest exts s with
    | Some n => Some (G (drop n s))
    | None => None
    end.
Proof.
  induction s as [|c s IH]; cbn [rep_lazy link_rest Nat.eqb Nat.pred].
  - now destruct (match_extension exts []).
  - destruct (match_extension exts (c :: s)); [reflexivity|].
    unfold not_rbracket at 1.
    destruct (N.eqb c RBRACKET); [reflexivity|]. cbn [negb].
    rewrite IH. now destruct (link_rest exts s).
Qed.

(** The link pattern: at any index, the backtracking match is the one
    [link_match] computes, with the link as group 1. *)
Lemma link_match_regex (total : nat) (exts : list str) (s : str) :
  exts <> [] ->
  match_at total (image_link_re exts) s
  = match link_match exts s with
    | Some n =>
        Some ([take n (drop (length LINK_OPEN) s)],
              length LINK_OPEN + n + length LINK_CLOSE)
    | None => None
    end.
Proof.
  intros Hexts. destruct exts as [|e exts]; [congruence|].
  unfold match_at, image_link_re, link_match. cbn [run].
  destruct (str_startswith LINK_OPEN s) eqn:Eopen; [|reflexivity].
  apply str_startswith_inv in Eopen.
  set (s1 := drop (length LINK_OPEN) s) in *. clearbody s1.
  destruct s1 as [|c s2]; [reflexivity|].
  cbn [rep_lazy Nat.eqb Nat.pred]. unfold not_rbracket at 1.
  destruct (N.eqb c RBRACKET); [reflexivity|]. cbn [negb].
  erewrite rep_lazy_ext.
  2:{ intros s'.
      apply (alternation_run total e exts s' []
               (fun s'' caps' =>
                  (caps' ++ [take (length (c :: s2) - length s'') (c :: s2)],
                   length s - length (drop (length LINK_CLOSE) s'')))). }
  rewrite (rep_lazy_link (e :: exts)
             (fun t => ([] ++ [take (length (c :: s2) - length t) (c :: s2)],
                        length s - length (drop (length LINK_CLOSE) t)))).
  destruct (link_rest (e :: exts) s2) as [n|] eqn:Erest; [|reflexivity].
  apply link_rest_bound in Erest.
  cbn [option_map app]. f_equal. f_equal.
  - f_equal. f_equal. rewrite length_drop. cbn [length]. lia.
  - rewrite Eopen, length_app, !length_drop.
    cbn [length LINK_OPEN LINK_CLOSE] in *. lia.
Qed.

(** The field pattern is not anchored to the start of a line and every
    match is replaced: a second key that ends in [OCR:] loses its quoted
    value too. *)
Example merge_rewrites_every_match :
  updated_content
    (FM_OPEN ++ of_string "XOCR: " ++ [DQUOTE] ++ of_string "kept" ++ [DQUOTE]
     ++ [NL] ++ OCR_FIELD_OPEN ++ of_string "old" ++ [DQUOTE]
     ++ FM_CLOSE ++ [NL] ++ of_string "body")
    (of_string "new")
  = Ok (FM_OPEN ++ of_string "XOCR: " ++ [DQUOTE] ++ of_string "new" ++ [DQUOTE]
        ++ [NL] ++ OCR_FIELD_OPEN ++ of_string "new" ++ [DQUOTE]
        ++ FM_CLOSE ++ [NL] ++ of_string "body").
Proof. reflexivity. Qed.

(** * Further properties of the script *)

(** ** What [perform_ocr] returns *)

Lemma perform_ocr_eq (cfg : Config) (w : World) (image_path : str) :
  perform_ocr cfg w image_path
  = match image_to_string w image_path (OCR_LANGUAGES cfg) with
    | Recognized t => Some (clean t)
    | OcrError e =>
        if str_contains NO_SUCH_FILE e && str_contains RESOURCES image_path
        then match image_to_string w (modify_image_path image_path)
                     (OCR_LANGUAGES cfg) with
             | Recognized t => Some (clean t)
             | OcrError _ => None
             end
        else None
    end.
Proof.
  unfold perform_ocr. destruct image_path as [|c p].
  - cbn. destruct (image_to_string w [] (OCR_LANGUAGES cfg)); [reflexivity|].
    now rewrite andb_false_r.
  - cbn [length perform_ocr_fuel].
    destruct (image_to_string w (c :: p) (OCR_LANGUAGES cfg)) as [t|e];
      [reflexivity|].
    destruct (str_contains NO_SUCH_FILE e && str_contains RESOURCES (c :: p));
      [|reflexivity].
    destruct (image_to_string w (modify_image_path (c :: p)) (OCR_LANGUAGES cfg));
      [reflexivity|].
    now rewrite modify_image_path_no_marker, andb_false_r.
Qed.

Lemma replace_scan_removes (a : char) (new s : str) :
  lacks a new = true -> lacks a (replace_scan [a] new 0 s) = true.
Proof.
  intros Hnew. rewrite replace_scan_char.
  induction s as [|c s IH]; [reflexivity|].
  cbn [flat_map]. rewrite lacks_app, IH, andb_true_r.
  destruct (N.eqb a c) eqn:E; [exact Hnew|].
  unfold lacks. cbn [forallb]. now rewrite (N.eqb_sym c a), E.
Qed.

Lemma clean_lacks_controls (raw : str) :
  lacks NL (clean raw) = true /\ lacks CR (clean raw) = true
  /\ lacks TAB (clean raw) = true /\ lacks DQUOTE (clean raw) = true.
Proof.
  split; [apply clean_one_line|]. unfold clean. repeat split.
  - do 4 (apply (replace_scan_lacks CR); [reflexivity|]).
    now apply replace_scan_removes.
  - do 3 (apply (replace_scan_lacks TAB); [reflexivity|]).
    now apply replace_scan_removes.
  - apply (replace_scan_lacks DQUOTE); [reflexivity|].
    now apply replace_scan_removes.
Qed.

(** X1. A text that [perform_ocr] returns, at the first attempt or at the
    retry, holds no line feed, no carriage return, no tab and no double
    quote: it fits between the quotes of one line. *)
Theorem perform_ocr_text_one_field (cfg : Config) (w : World)
    (image_path text : str) :
  perform_ocr cfg w image_path = Some text ->
  lacks NL text = true /\ lacks CR text = true
  /\ lacks TAB text = true /\ lacks DQUOTE text = true.
Proof.
  rewrite perform_ocr_eq. intros H.
  assert (Hclean : exists raw, text = clean raw).
  { destruct (image_to_string w image_path (OCR_LANGUAGES cfg)) as [t|e].
    - injection H as <-. now exists t.
    - destruct (str_contains NO_SUCH_FILE e
                && str_contains RESOURCES image_path); [|discriminate].
      destruct (image_to_string w (modify_image_path image_path)
                  (OCR_LANGUAGES cfg)) as [t|e']; [|discriminate].
      injection H as <-. now exists t. }
  destruct Hclean as [raw ->]. apply clean_lacks_controls.
Qed.

Lemma perform_ocr_text_one_field_witness :
  lacks DQUOTE (of_string "say 'hi'") = true.
Proof.
  exact (proj2 (proj2 (proj2
    (perform_ocr_text_one_field example_config
       (constant_world (of_string "say " ++ [DQUOTE] ++ of_string "hi" ++ [DQUOTE]))
       (of_string "a.png") (of_string "say 'hi'") eq_refl)))).
Defined.

(** ** Blank images *)

Lemma drop_while_all (f : char -> bool) (s : str) :
  forallb f s = true -> drop_while f s = [].
Proof.
  induction s as [|c s IH]; [reflexivity|].
  cbn. intros H; apply andb_prop in H as [Hc Hs]. now rewrite Hc, IH.
Qed.

Lemma clean_blank (raw : str) :
  forallb is_space raw = true -> clean raw = [].
Proof.
  intros H. unfold clean, str_strip, str_rstrip, str_lstrip.
  now rewrite (drop_while_all _ _ H).
Qed.

Lemma concat_all_empty (texts : list (option str)) :
  Forall (fun t => text_or_empty t = []) texts ->
  concat (List.map text_or_empty texts) = [].
Proof.
  induction 1 as [|t texts Ht _ IH]; [reflexivity|].
  cbn [List.map concat]. now rewrite Ht, IH.
Qed.

(** X2. When the engine reads nothing but white space in every image of
    a document, the cleaned texts are empty, the joined text is empty and
    the document is not written: no empty field is added. *)
Theorem blank_images_leave_document (cfg : Config) (w : World) (v : Vault)
    (md_file : str) (image_links : list str) :
  fair w ->
  extract_image_links cfg v md_file (OVERWRITE_OCR cfg) = Ok image_links ->
  Forall
    (fun link =>
       exists raw,
         image_to_string w (find_linked_attachment cfg w md_file link)
           (OCR_LANGUAGES cfg) = Recognized raw
         /\ forallb is_space raw = true)
    image_links ->
  process_markdown_file cfg w v md_file = Ok v.
Proof.
  intros Hfair Hlinks Hblank. unfold process_markdown_file.
  rewrite Hlinks. cbn.
  rewrite concat_all_empty; [reflexivity|].
  eapply Permutation_Forall; [symmetry; apply Hfair|].
  apply Forall_map. eapply Forall_impl; [exact Hblank|].
  intros link (raw & Hraw & Hspace). cbn beta.
  now rewrite perform_ocr_eq, Hraw, (clean_blank _ Hspace).
Qed.

Lemma constant_world_fair (text : str) : fair (constant_world text).
Proof. intros results. reflexivity. Qed.

Lemma blank_images_leave_document_witness :
  process_markdown_file example_config blank_world
    (vault_of trip_md plain_document) trip_md
  = Ok (vault_of trip_md plain_document).
Proof.
  refine (blank_images_leave_document example_config blank_world
            (vault_of trip_md plain_document) trip_md
            [of_string "photo.png"] (constant_world_fair _) eq_refl _).
  repeat constructor. exists [SPACE; NL; SPACE]. split; reflexivity.
Defined.

(** ** Splitting and joining paths *)

Lemma str_split_nonempty (sep : char) (s : str) : str_split sep s <> [].
Proof.
  destruct s as [|c s]; cbn; [discriminate|].
  destruct (N.eqb c sep); [discriminate|].
  destruct (str_split sep s); discriminate.
Qed.

Lemma str_join_cons (sep : char) (x : str) (parts : list str) :
  parts <> [] ->
  str_join [sep] (x :: parts) = x ++ sep :: str_join [sep] parts.
Proof.
  destruct parts; [congruence|reflexivity].
Qed.

Lemma str_join_split (sep : char) (s : str) :
  str_join [sep] (str_split sep s) = s.
Proof.
  induction s as [|c s IH]; [reflexivity|].
  cbn [str_split]. destruct (N.eqb c sep) eqn:E.
  - apply N.eqb_eq in E. subst c.
    rewrite str_join_cons by apply str_split_nonempty.
    now rewrite IH.
  - pose proof (str_split_nonempty sep s) as Hne.
    destruct (str_split sep s) as [|seg segs]; [congruence|].
    destruct segs as [|seg' segs].
    + cbn in IH |- *. now rewrite IH.
    + rewrite str_join_cons in IH |- * by discriminate.
      cbn [app]. now rewrite IH.
Qed.

Lemma str_split_app (sep : char) (a b : str) :
  str_split sep (a ++ sep :: b)
  = match str_split sep a with
    | [] => str_split sep b
    | _ :: _ => str_split sep a ++ str_split sep b
    end.
Proof.
  pose proof (str_split_nonempty sep a) as Hne.
  destruct (str_split sep a) as [|x xs] eqn:E; [congruence|]. clear Hne.
  revert x xs E; induction a as [|c a IH]; intros x xs E.
  - cbn in E. injection E as <- <-. cbn [app str_split].
    now rewrite N.eqb_refl.
  - cbn [app str_split] in E |- *. destruct (N.eqb c sep).
    + injection E as <- <-.
      pose proof (str_split_nonempty sep a) as Hne.
      destruct (str_split sep a) as [|y ys] eqn:Ea; [congruence|].
      now rewrite (IH y ys eq_refl).
    + pose proof (str_split_nonempty sep a) as Hne.
      destruct (str_split sep a) as [|y ys] eqn:Ea; [congruence|].
      rewrite (IH y ys eq_refl). injection E as <- <-. reflexivity.
Qed.

Lemma str_join_app (sep : char) (l1 l2 : list str) :
  l1 <> [] -> l2 <> [] ->
  str_join [sep] (l1 ++ l2) = str_join [sep] l1 ++ sep :: str_join [sep] l2.
Proof.
  intros H1 H2. induction l1 as [|x l1 IH]; [congruence|].
  destruct l1 as [|y l1].
  - cbn [app]. now apply str_join_cons.
  - change ((x :: y :: l1) ++ l2) with (x :: ((y :: l1) ++ l2)).
    rewrite str_join_cons by discriminate.
    rewrite IH by discriminate.
    rewrite (str_join_cons sep x (y :: l1)) by discriminate.
    now rewrite <- app_assoc.
Qed.

Lemma filter_all {A} (f : A -> bool) (l : list A) :
  forallb f l = true -> List.filter f l = l.
Proof.
  induction l as [|x l IH]; [reflexivity|].
  cbn. intros H; apply andb_prop in H as [Hx Hl]. now rewrite Hx, IH.
Qed.

Lemma segments_lack_marker (m s : str) :
  lacks SLASH m = true -> m <> [] ->
  str_contains m s = false ->
  forallb (fun part => negb (str_contains m part)) (str_split SLASH s) = true.
Proof.
  intros Hm Hne Hs.
  rewrite <- (str_join_split SLASH s) in Hs.
  rewrite (str_contains_join SLASH m _ Hm Hne) in Hs.
  apply forallb_forall. intros part Hin.
  destruct (str_contains m part) eqn:E; [|reflexivity].
  assert (existsb (str_contains m) (str_split SLASH s) = true)
    by (apply existsb_exists; eauto).
  congruence.
Qed.

(** ** [modify_image_path] *)

Lemma modify_image_path_plain (image_path : str) :
  str_contains RESOURCES image_path = false ->
  modify_image_path image_path = image_path.
Proof.
  intros H. unfold modify_image_path.
  rewrite filter_all; [apply str_join_split|].
  apply segments_lack_marker; [reflexivity|discriminate|exact H].
Qed.

(** X3. [modify_image_path] gives back unchanged every path in which
    [.resources] does not occur, and applying it twice is applying it
    once. *)
Theorem modify_image_path_stable (image_path : str) :
  modify_image_path (modify_image_path image_path)
  = modify_image_path image_path
  /\ (str_contains RESOURCES image_path = false ->
      modify_image_path image_path = image_path).
Proof.
  split; [|apply modify_image_path_plain].
  apply modify_image_path_plain, modify_image_path_no_marker.
Qed.

Lemma modify_image_path_stable_witness :
  modify_image_path (of_string "Notes/Attachments/photo.png")
  = of_string "Notes/Attachments/photo.png".
Proof.
  exact (proj2 (modify_image_path_stable
                  (of_string "Notes/Attachments/photo.png")) eq_refl).
Defined.

(** ** The resolver and the retry together *)

Lemma str_split_app_sep (sep : char) (a b : str) :
  str_split sep (a ++ sep :: b) = str_split sep a ++ str_split sep b.
Proof.
  rewrite str_split_app.
  pose proof (str_split_nonempty sep a).
  now destruct (str_split sep a).
Qed.

Lemma str_split_single (sep : char) (s : str) :
  lacks sep s = true -> str_split sep s = [s].
Proof.
  induction s as [|c s IH]; [reflexivity|].
  cbn [lacks forallb]. intros H; apply andb_prop in H as [Hc Hs].
  cbn [str_split]. apply negb_true_iff in Hc. now rewrite Hc, (IH Hs).
Qed.

Lemma lacks_drop_rfind (c : char) (s : str) :
  lacks c (drop (rfind_succ c s) s) = true.
Proof.
  induction s as [|x s IH]; [reflexivity|].
  cbn [rfind_succ]. destruct (rfind_succ c s) as [|k] eqn:E.
  - cbn [drop] in IH. destruct (N.eqb x c) eqn:Ex; [exact IH|].
    cbn [drop lacks forallb]. now rewrite Ex.
  - exact IH.
Qed.

Lemma lacks_take (c : char) (n : nat) (s : str) :
  lacks c s = true -> lacks c (take n s) = true.
Proof.
  revert n; induction s as [|x s IH]; intros [|n] H; try reflexivity.
  cbn [lacks forallb take] in *. apply andb_prop in H as [Hx Hs].
  rewrite Hx. now apply IH.
Qed.

Lemma basename_lacks_slash (p : str) : lacks SLASH (basename p) = true.
Proof. apply lacks_drop_rfind. Qed.

Lemma resource_folder_lacks_slash (md_path : str) :
  lacks SLASH
    (str_replace [SPACE] [UNDERSCORE] (fst (splitext (basename md_path)))
     ++ RESOURCES) = true.
Proof.
  rewrite lacks_app, andb_true_r. apply replace_scan_lacks; [reflexivity|].
  unfold splitext.
  destruct ((rfind_succ SLASH (basename md_path)
             <? rfind_succ DOT (basename md_path))
            && negb (forallb (N.eqb DOT)
                       (take (rfind_succ DOT (basename md_path) - 1
                              - rfind_succ SLASH (basename md_path))
                          (drop (rfind_succ SLASH (basename md_path))
                             (basename md_path))))).
  - apply lacks_take, basename_lacks_slash.
  - apply basename_lacks_slash.
Qed.

Lemma default_guess_shape (cfg : Config) (w : World) (md_path image_link : str) :
  str_contains (ATTACHMENT_FOLDER cfg) image_link = false ->
  find_linked_attachment cfg w md_path image_link
  = dirname md_path ++ SLASH
    :: ATTACHMENT_FOLDER cfg ++ SLASH
    :: (str_replace [SPACE] [UNDERSCORE] (fst (splitext (basename md_path)))
        ++ RESOURCES) ++ SLASH :: basename image_link.
Proof.
  intros H. unfold find_linked_attachment. rewrite H. cbn [negb app].
  change (of_string ".resources/") with (RESOURCES ++ [SLASH]).
  now rewrite <- !app_assoc.
Qed.

Lemma default_guess_corrected (cfg : Config) (w : World)
    (md_path image_link : str) :
  str_contains (ATTACHMENT_FOLDER cfg) image_link = false ->
  str_contains RESOURCES (dirname md_path) = false ->
  str_contains RESOURCES (ATTACHMENT_FOLDER cfg) = false ->
  str_contains RESOURCES (basename image_link) = false ->
  modify_image_path (find_linked_attachment cfg w md_path image_link)
  = dirname md_path ++ [SLASH] ++ ATTACHMENT_FOLDER cfg ++ [SLASH]
    ++ basename image_link.
Proof.
  intros Hlink Hdir Hfolder Hbase.
  rewrite (default_guess_shape cfg w md_path image_link Hlink).
  unfold modify_image_path. rewrite !str_split_app_sep.
  rewrite (str_split_single SLASH _ (resource_folder_lacks_slash md_path)).
  rewrite (str_split_single SLASH _ (basename_lacks_slash image_link)).
  rewrite !List.filter_app.
  rewrite (filter_all _ (str_split SLASH (dirname md_path)))
    by (apply segments_lack_marker; [reflexivity|discriminate|exact Hdir]).
  rewrite (filter_all _ (str_split SLASH (ATTACHMENT_FOLDER cfg)))
    by (apply segments_lack_marker; [reflexivity|discriminate|exact Hfolder]).
  cbn [List.filter].
  assert (Hx : str_contains RESOURCES
                 (str_replace [SPACE] [UNDERSCORE]
                    (fst (splitext (basename md_path))) ++ RESOURCES) = true)
    by (apply str_contains_app_r; reflexivity).
  rewrite Hx, Hbase.
  cbn [negb app].
  rewrite (str_join_app SLASH (str_split SLASH (dirname md_path)));
    [|apply str_split_nonempty
     |intros H; apply app_eq_nil in H as [_ H]; discriminate].
  rewrite (str_join_app SLASH (str_split SLASH (ATTACHMENT_FOLDER cfg)));
    [|apply str_split_nonempty|discriminate].
  now rewrite !str_join_split.
Qed.

(** X4. The default guess of the resolver always names a [.resources]
    folder, so when the engine finds no file there the retry takes
    place, and it asks for the image directly under the attachment
    folder, next to the document: the result of [perform_ocr] is the
    engine's answer for that path. *)
Theorem default_guess_falls_back (cfg : Config) (w : World)
    (md_path image_link e : str) :
  str_contains (ATTACHMENT_FOLDER cfg) image_link = false ->
  str_contains RESOURCES (dirname md_path) = false ->
  str_contains RESOURCES (ATTACHMENT_FOLDER cfg) = false ->
  str_contains RESOURCES (basename image_link) = false ->
  image_to_string w (find_linked_attachment cfg w md_path image_link)
    (OCR_LANGUAGES cfg) = OcrError e ->
  str_contains NO_SUCH_FILE e = true ->
  perform_ocr cfg w (find_linked_attachment cfg w md_path image_link)
  = match image_to_string w
            (dirname md_path ++ [SLASH] ++ ATTACHMENT_FOLDER cfg ++ [SLASH]
             ++ basename image_link) (OCR_LANGUAGES cfg) with
    | Recognized t => Some (clean t)
    | OcrError _ => None
    end.
Proof.
  intros Hlink Hdir Hfolder Hbase Herr Hmissing.
  rewrite perform_ocr_eq, Herr, Hmissing.
  rewrite (default_guess_corrected cfg w md_path image_link
             Hlink Hdir Hfolder Hbase).
  rewrite (default_guess_shape cfg w md_path image_link Hlink).
  replace (str_contains RESOURCES _) with true; [reflexivity|].
  symmetry.
  apply str_contains_app_r. cbn [str_contains].
  rewrite (str_contains_app_r RESOURCES (ATTACHMENT_FOLDER cfg)); [apply orb_true_r|].
  cbn [str_contains].
  rewrite <- app_assoc.
  rewrite (str_contains_app_r RESOURCES
             (str_replace [SPACE] [UNDERSCORE] (fst (splitext (basename md_path)))));
    [apply orb_true_r|].
  apply str_contains_prefix, str_startswith_app.
Qed.

Lemma default_guess_falls_back_witness :
  perform_ocr example_config fallback_world
    (of_string "Notes/Attachments/Trip.resources/photo.png")
  = Some (of_string "Hello").
Proof.
  exact (default_guess_falls_back example_config fallback_world trip_md
           (of_string "photo.png")
           (of_string "[Errno 2] No such file or directory")
           eq_refl eq_refl eq_refl eq_refl eq_refl eq_refl).
Defined.

(** X5. When the attachment folder's name occurs in the link and no
    segment of the link has the NFD form of a segment of the document's
    path, the resolver puts the link, unchanged, under the document's
    directory. *)
Theorem find_linked_attachment_keeps_link (cfg : Config) (w : World)
    (md_path image_link : str) :
  str_contains (ATTACHMENT_FOLDER cfg) image_link = true ->
  Forall
    (fun seg =>
       Forall (fun part => normalize_NFD w seg <> normalize_NFD w part)
         (str_split SLASH md_path))
    (str_split SLASH image_link) ->
  find_linked_attachment cfg w md_path image_link
  = dirname md_path ++ [SLASH] ++ image_link.
Proof.
  intros Hin Hfree. unfold find_linked_attachment. rewrite Hin. cbn [negb].
  rewrite filter_all; [now rewrite str_join_split|].
  apply forallb_forall. intros seg Hseg.
  rewrite nfd_overlap_decide. apply bool_decide_eq_true_2.
  rewrite Forall_forall in Hfree. apply Hfree.
  now apply list_elem_of_In.
Qed.

Lemma find_linked_attachment_keeps_link_witness :
  find_linked_attachment example_config missing_world trip_md
    (of_string "Attachments/2024/photo.png")
  = of_string "Notes/Attachments/2024/photo.png".
Proof.
  refine (find_linked_attachment_keeps_link example_config missing_world
            trip_md (of_string "Attachments/2024/photo.png") eq_refl _).
  repeat constructor; discriminate.
Defined.

(** ** What [extract_image_links] extracts *)

Lemma ci_startswith_take (e s : str) :
  ci_startswith e s = true -> ci_startswith e (take (length e) s) = true.
Proof.
  revert s; induction e as [|a e IH]; intros [|b s] H; cbn in *;
    try reflexivity; try discriminate.
  apply andb_prop in H as [Hab H]. now rewrite Hab, (IH s H).
Qed.

Lemma match_extension_inv (exts : list str) (s : str) (n : nat) :
  match_extension exts s = Some n ->
  exists e,
    In e exts /\ n = length e /\ ci_startswith e s = true
    /\ str_startswith LINK_CLOSE (drop n s) = true.
Proof.
  induction exts as [|e exts IH]; [discriminate|].
  cbn [match_extension].
  destruct (ci_startswith e s && str_startswith LINK_CLOSE (drop (length e) s))
    eqn:E.
  - intros H. injection H as <-. apply andb_prop in E as [He Hc].
    exists e. repeat split; [now left|assumption|assumption].
  - intros H. destruct (IH H) as (e' & Hin & Hrest).
    exists e'. split; [now right|exact Hrest].
Qed.

Lemma link_rest_inv (exts : list str) (s : str) (n : nat) :
  link_rest exts s = Some n ->
  exists k e,
    In e exts /\ n = k + length e
    /\ lacks RBRACKET (take k s) = true
    /\ ci_startswith e (drop k s) = true
    /\ str_startswith LINK_CLOSE (drop n s) = true.
Proof.
  revert n; induction s as [|c s IH]; intros n H; cbn [link_rest] in H.
  - destruct (match_extension exts []) as [m|] eqn:E; [|discriminate].
    injection H as <-.
    destruct (match_extension_inv _ _ _ E) as (e & Hin & Hm & He & Hc).
    exists 0, e. repeat split; assumption.
  - destruct (match_extension exts (c :: s)) as [m|] eqn:E.
    + injection H as <-.
      destruct (match_extension_inv _ _ _ E) as (e & Hin & Hm & He & Hc).
      exists 0, e. repeat split; assumption.
    + destruct (N.eqb c RBRACKET) eqn:Ec; [discriminate|].
      destruct (link_rest exts s) as [m|] eqn:Er; [|discriminate].
      injection H as <-.
      destruct (IH m eq_refl) as (k & e & Hin & Hm & Hrun & He & Hc).
      exists (S k), e. repeat split; try assumption.
      * lia.
      * cbn [take lacks forallb]. rewrite Ec. exact Hrun.
Qed.

(** An extracted link: a first part without a closing bracket, not empty,
    then a text that is one of the extensions up to case. *)
Lemma link_match_inv (exts : list str) (s : str) (n : nat) :
  link_match exts s = Some n ->
  exists rest run ext e,
    s = LINK_OPEN ++ (run ++ ext) ++ LINK_CLOSE ++ rest
    /\ take n (drop (length LINK_OPEN) s) = run ++ ext
    /\ run <> [] /\ lacks RBRACKET run = true
    /\ In e exts /\ length ext = length e /\ ci_startswith e ext = true.
Proof.
  unfold link_match.
  destruct (str_startswith LINK_OPEN s) eqn:Eopen; [|discriminate].
  apply str_startswith_inv in Eopen.
  set (s3 := drop (length LINK_OPEN) s) in *. clearbody s3.
  destruct s3 as [|c s4]; [discriminate|].
  destruct (N.eqb c RBRACKET) eqn:Ec; [discriminate|].
  destruct (link_rest exts s4) as [m|] eqn:Er; [|discriminate].
  intros H. injection H as <-.
  destruct (link_rest_inv _ _ _ Er) as (k & e & Hin & Hm & Hrun & He & Hc).
  apply str_startswith_inv in Hc.
  exists (drop (length LINK_CLOSE) (drop m s4)),
    (c :: take k s4), (take (length e) (drop k s4)), e.
  assert (Hlink : take (S m) (c :: s4)
                  = (c :: take k s4) ++ take (length e) (drop k s4)).
  { cbn [take app]. f_equal. subst m. symmetry. apply take_take_drop. }
  repeat split.
  - rewrite Eopen at 1. f_equal. rewrite <- Hlink.
    rewrite <- (take_drop (S m) (c :: s4)) at 1. f_equal.
    cbn [drop]. exact Hc.
  - exact Hlink.
  - discriminate.
  - cbn [lacks forallb]. rewrite Ec. exact Hrun.
  - exact Hin.
  - apply length_take_le. now apply ci_startswith_length.
  - now apply ci_startswith_take.
Qed.

Lemma well_formed_link_later (exts : list str) (c : char) (s link : str) :
  well_formed_link exts s link -> well_formed_link exts (c :: s) link.
Proof.
  intros (run & ext & e & H1 & H2 & H3 & H4 & H5 & H6 & H7).
  exists run, ext, e. repeat split; try assumption.
  cbn [str_contains]. now rewrite H7, orb_true_r.
Qed.

Lemma findall_links_here (exts : list str) (c : char) (s : str) :
  findall_links exts 0 (c :: s)
  = match link_match exts (c :: s) with
    | Some n =>
        take n (drop (length LINK_OPEN) (c :: s))
        :: findall_links exts (length LINK_OPEN + n + length LINK_CLOSE - 1) s
    | None => findall_links exts 0 s
    end.
Proof. reflexivity. Qed.

Lemma findall_links_sound (exts : list str) (skip : nat) (s : str) :
  Forall (well_formed_link exts s) (findall_links exts skip s).
Proof.
  revert skip; induction s as [|c s IH]; intros skip; [constructor|].
  destruct skip as [|k]; [rewrite findall_links_here|cbn [findall_links]].
  - destruct (link_match exts (c :: s)) as [n|] eqn:Em.
    + constructor.
      * destruct (link_match_inv _ _ _ Em)
          as (rest & run & ext & e & Hs & Hl & H2 & H3 & H4 & H5 & H6).
        exists run, ext, e. repeat split; try assumption.
        apply str_contains_prefix. rewrite Hl, Hs.
        replace (LINK_OPEN ++ (run ++ ext) ++ LINK_CLOSE ++ rest)
          with ((LINK_OPEN ++ (run ++ ext) ++ LINK_CLOSE) ++ rest)
          by (now rewrite <- !app_assoc).
        apply str_startswith_app.
      * eapply Forall_impl; [apply IH|]. intros link.
        apply well_formed_link_later.
    + eapply Forall_impl; [apply IH|]. intros link.
      apply well_formed_link_later.
  - eapply Forall_impl; [apply IH|]. intros link.
    apply well_formed_link_later.
Qed.



Lemma str_contains_app_l (p x y : str) :
  str_contains p x = true -> str_contains p (x ++ y) = true.
Proof.
  induction x as [|c x IH].
  - cbn. destruct p; [|discriminate]. intros _.
    apply str_contains_prefix. reflexivity.
  - cbn [app str_contains]. intros H.
    apply orb_true_iff in H as [H|H].
    + apply str_startswith_inv in H.
      replace (str_startswith p (c :: x ++ y)) with true; [reflexivity|].
      symmetry. change (c :: x ++ y) with ((c :: x) ++ y).
      rewrite H, <- app_assoc. apply str_startswith_app.
    + now rewrite (IH H), orb_true_r.
Qed.

Lemma str_contains_shorter (p q s : str) :
  str_contains (p ++ q) s = true -> str_contains p s = true.
Proof.
  assert (Hhead : forall t, str_startswith (p ++ q) t = true ->
                            str_startswith p t = true).
  { intros t H. apply str_startswith_inv in H. rewrite H, <- app_assoc.
    apply str_startswith_app. }
  induction s as [|c s IH]; cbn [str_contains]; intros H.
  - rewrite orb_false_r in H. now rewrite (Hhead _ H).
  - apply orb_true_iff in H as [H|H].
    + now rewrite (Hhead _ H).
    + now rewrite (IH H), orb_true_r.
Qed.

(** X7. With extensions made of ASCII letters, digits and dots, as
    those of the script, a document in which [![[] does not occur has
    no image link: [extract_image_links] returns the empty list, and
    processing it returns the vault as it was. *)
Theorem no_opening_brackets_no_links (cfg : Config) (w : World) (v : Vault)
    (md_file content : str) (overwrite : bool) :
  literal_extensions (IMAGE_EXTENSIONS cfg) = true ->
  fair w ->
  files v !! md_file = Some content ->
  str_contains LINK_OPEN content = false ->
  extract_image_links cfg v md_file overwrite = Ok []
  /\ process_markdown_file cfg w v md_file = Ok v.
Proof.
  intros _ Hfair Hfile Hnone.
  rewrite <- (str_contains_universal_newlines LINK_OPEN content eq_refl eq_refl)
    in Hnone.
  assert (Hall : forall ow, extract_image_links cfg v md_file ow = Ok []).
  { intros ow. unfold extract_image_links, read_file. rewrite Hfile. cbn.
    destruct (negb ow && str_contains OCR_KEY (universal_newlines content));
      [reflexivity|].
    pose proof (findall_links_sound (alternatives (IMAGE_EXTENSIONS cfg))
                  0 (universal_newlines content)) as Hsound.
    destruct (findall_links (alternatives (IMAGE_EXTENSIONS cfg)) 0
                (universal_newlines content))
      as [|link links]; [reflexivity|].
    inversion Hsound as [|? ? (run & ext & e & _ & _ & _ & _ & _ & _ & Hc) _].
    apply str_contains_shorter in Hc. congruence. }
  split; [apply Hall|].
  unfold process_markdown_file. rewrite Hall. cbn.
  now rewrite (fair_nil w Hfair).
Qed.

Lemma no_opening_brackets_no_links_witness :
  process_markdown_file example_config missing_world
    (vault_of trip_md (of_string "no pictures here")) trip_md
  = Ok (vault_of trip_md (of_string "no pictures here")).
Proof.
  exact (proj2 (no_opening_brackets_no_links example_config missing_world
           (vault_of trip_md (of_string "no pictures here")) trip_md
           (of_string "no pictures here") false
           eq_refl missing_world_fair eq_refl eq_refl)).
Defined.

(** ** The marker survives every merge *)

Lemma is_digit_not_O (c : char) : is_digit c = true -> N.eqb c O_CHAR = false.
Proof.
  intros H. destruct (N.eqb c O_CHAR) eqn:E; [|reflexivity].
  apply N.eqb_eq in E. subst c. discriminate.
Qed.

Lemma digits_lack_O (s : str) :
  forallb is_digit s = true -> lacks O_CHAR s = true.
Proof.
  induction s as [|c s IH]; [reflexivity|].
  cbn [forallb lacks]. intros H; apply andb_prop in H as [Hc Hs].
  fold (lacks O_CHAR s). now rewrite (is_digit_not_O _ Hc), (IH Hs).
Qed.

Lemma take_while_take (f : char -> bool) (s : str) :
  take (length (take_while f s)) s = take_while f s.
Proof.
  induction s as [|c s IH]; [reflexivity|].
  cbn [take_while]. destruct (f c); [|reflexivity].
  cbn [length take]. now rewrite IH.
Qed.

Lemma take_while_drop_all (f : char -> bool) (s : str) :
  drop (length (take_while f s)) s = drop_while f s.
Proof.
  induction s as [|c s IH]; [reflexivity|].
  cbn [take_while drop_while]. destruct (f c); [|reflexivity].
  cbn [length drop]. exact IH.
Qed.

Lemma drop_while_head (f : char -> bool) (s : str) :
  forallb (fun c => negb (f c)) (take 1 (drop_while f s)) = true.
Proof.
  induction s as [|c s IH]; [reflexivity|].
  cbn [drop_while]. destruct (f c) eqn:E; [exact IH|].
  cbn. now rewrite E.
Qed.

(** An escape that the template parser accepts takes no letter O. *)
Lemma template_escape_consumes (groups : list str) (rest out : str) (n : nat) :
  template_escape groups rest = Ok (out, n) ->
  lacks O_CHAR (take n rest) = true.
Proof.
  unfold template_escape. destruct rest as [|c rest1]; [discriminate|].
  destruct (N.eqb c 103) eqn:Eg.
  { apply N.eqb_eq in Eg. subst c.
    destruct rest1 as [|lt rest2]; [discriminate|].
    destruct (N.eqb lt 60) eqn:Elt; [|discriminate].
    apply N.eqb_eq in Elt. subst lt.
    set (name := take_while (fun x => negb (N.eqb x 62)) rest2).
    destruct (length name =? length rest2); [discriminate|].
    destruct (forallb is_digit name && negb (length name =? 0)) eqn:Ed;
      [|discriminate].
    apply andb_prop in Ed as [Ed _].
    destruct (group_ref groups (decimal name)) as [g|]; [|discriminate].
    intros H. injection H as _ <-.
    cbn [Nat.add take lacks forallb].
    cbn [N.eqb O_CHAR Pos.eqb negb andb].
    change (forallb (fun x => negb (N.eqb x O_CHAR))
              (take (length name + 1) rest2))
      with (lacks O_CHAR (take (length name + 1) rest2)).
    rewrite <- take_take_drop, lacks_app. subst name.
    rewrite take_while_take, (digits_lack_O _ Ed), take_while_drop_all.
    cbn [andb].
    pose proof (drop_while_head (fun x => negb (N.eqb x 62)) rest2) as Hh.
    destruct (drop_while (fun x => negb (N.eqb x 62)) rest2) as [|x xs];
      [reflexivity|].
    cbn in Hh |- *. rewrite andb_true_r in Hh |- *.
    apply negb_true_iff, negb_false_iff, N.eqb_eq in Hh. now subst x. }
  assert (Hc1 : forall r, is_digit c = true ->
                          lacks O_CHAR (take 1 (c :: r)) = true).
  { intros r Hd. cbn. now rewrite (is_digit_not_O _ Hd). }
  assert (Hc2 : forall d r, is_digit c = true -> is_digit d = true ->
                            lacks O_CHAR (take 2 (c :: d :: r)) = true).
  { intros d r Hd1 Hd2. cbn.
    now rewrite (is_digit_not_O _ Hd1), (is_digit_not_O _ Hd2). }
  assert (Hc3 : forall d o r,
             is_digit c = true -> is_digit d = true -> is_digit o = true ->
             lacks O_CHAR (take 3 (c :: d :: o :: r)) = true).
  { intros d o r Hd1 Hd2 Hd3. cbn.
    now rewrite (is_digit_not_O _ Hd1), (is_digit_not_O _ Hd2),
      (is_digit_not_O _ Hd3). }
  assert (Hoct : forall x, is_octdigit x = true -> is_digit x = true).
  { intros x Hx. unfold is_octdigit, is_digit in *.
    apply andb_prop in Hx as [H1 H2]. rewrite H1. cbn [andb].
    apply N.leb_le in H2. apply N.leb_le. lia. }
  destruct (N.eqb c 48) eqn:E0.
  { apply N.eqb_eq in E0. subst c.
    destruct rest1 as [|d1 rest2].
    - intros H. injection H as _ <-. reflexivity.
    - destruct (is_octdigit d1) eqn:E1.
      + destruct rest2 as [|d2 rest3].
        * intros H. injection H as _ <-. apply Hc2; [reflexivity|auto].
        * destruct (is_octdigit d2) eqn:E2;
            intros H; injection H as _ <-.
          -- apply Hc3; [reflexivity|auto|auto].
          -- apply Hc2; [reflexivity|auto].
      + intros H. injection H as _ <-. reflexivity. }
  destruct (is_digit c) eqn:Ed.
  { destruct rest1 as [|d rest2].
    - destruct (group_ref groups (digit_value c)); [|discriminate].
      intros H. injection H as _ <-. now apply Hc1.
    - destruct (is_digit d) eqn:Ed2.
      + destruct (is_octdigit c && is_octdigit d
                  && match rest2 with
                     | [] => false
                     | o :: _ => is_octdigit o
                     end) eqn:Eo.
        * destruct (255 <? 64 * digit_value c + 8 * digit_value d
                           + digit_value (hd 0 rest2))%N; [discriminate|].
          intros H. injection H as _ <-.
          destruct rest2 as [|o rest3];
            [now rewrite andb_false_r in Eo|].
          apply andb_prop in Eo as [_ Eo]. apply Hc3; auto.
        * destruct (group_ref groups (10 * digit_value c + digit_value d));
            [|discriminate].
          intros H. injection H as _ <-. now apply Hc2.
      + destruct (group_ref groups (digit_value c)); [|discriminate].
        intros H. injection H as _ <-. now apply Hc1. }
  destruct (escape_char c) as [x|] eqn:Ee.
  - intros H. injection H as _ <-. cbn.
    destruct (N.eqb c O_CHAR) eqn:E; [|reflexivity].
    apply N.eqb_eq in E. subst c. discriminate.
  - destruct (is_ascii_letter c) eqn:El; [discriminate|].
    intros H. injection H as _ <-. cbn.
    destruct (N.eqb c O_CHAR) eqn:E; [|reflexivity].
    apply N.eqb_eq in E. subst c. discriminate.
Qed.

Lemma str_contains_key_drop (n : nat) (t : str) :
  lacks O_CHAR (take n t) = true ->
  str_contains OCR_KEY t = true ->
  str_contains OCR_KEY (drop n t) = true.
Proof.
  revert t; induction n as [|n IH]; intros t Hlack Hkey; [exact Hkey|].
  destruct t as [|c t]; [discriminate|].
  cbn [take lacks forallb] in Hlack. apply andb_prop in Hlack as [Hc Hlack].
  cbn [str_contains] in Hkey. rewrite str_startswith_key_cons in Hkey.
  apply negb_true_iff in Hc. rewrite (N.eqb_sym O_CHAR c), Hc in Hkey.
  cbn [andb orb] in Hkey. cbn [drop]. now apply IH.
Qed.

Lemma expand_template_keeps_key (groups : list str) (t : str) :
  forall skip out,
    expand_template groups skip t = Ok out ->
    lacks O_CHAR (take skip t) = true ->
    str_contains OCR_KEY (drop skip t) = true ->
    str_contains OCR_KEY out = true.
Proof.
  induction t as [|c t IH]; intros skip out Hrun Hlack Hkey.
  - destruct skip; discriminate.
  - destruct skip as [|k].
    + cbn [expand_template] in Hrun. cbn [drop] in Hkey.
      destruct (N.eqb c BACKSLASH) eqn:Ec.
      * destruct (template_escape groups t) as [[e n]|] eqn:Ee;
          [|discriminate].
        cbn in Hrun.
        destruct (expand_template groups n t) as [tail|] eqn:Et;
          [|discriminate].
        cbn in Hrun. injection Hrun as <-.
        apply str_contains_app_r.
        pose proof (template_escape_consumes _ _ _ _ Ee) as Hn.
        apply (IH n tail Et Hn).
        apply (str_contains_key_drop n t Hn).
        cbn [str_contains] in Hkey. rewrite str_startswith_key_cons in Hkey.
        apply N.eqb_eq in Ec. subst c. exact Hkey.
      * destruct (expand_template groups 0 t) as [tail|] eqn:Et;
          [|discriminate].
        cbn in Hrun. injection Hrun as <-.
        cbn [str_contains] in Hkey |- *.
        apply orb_true_iff in Hkey as [Hhead|Hlater].
        -- apply orb_true_iff. left.
           apply str_startswith_inv in Hhead.
           cbn [OCR_KEY app length drop] in Hhead.
           injection Hhead as -> Ht.
           rewrite Ht in Et. cbn in Et.
           destruct (expand_template groups 0 (drop 3 t)) as [tail'|];
             [|discriminate].
           cbn in Et. injection Et as <-. reflexivity.
        -- apply orb_true_iff. right. now apply (IH 0 tail Et).
    + cbn [expand_template] in Hrun. cbn [take lacks forallb] in Hlack.
      apply andb_prop in Hlack as [_ Hlack]. cbn [drop] in Hkey.
      now apply (IH k out Hrun).
Qed.

Lemma updated_content_marked (existing ocr_text updated : str) :
  updated_content existing ocr_text = Ok updated ->
  str_contains OCR_KEY updated = true.
Proof.
  unfold updated_content.
  destruct (front_matter_search existing) as [[fm after]|].
  - set (ufm := if str_contains OCR_KEY fm
                then sub_ocr_field ocr_text 0 fm
                else fm ++ [NL] ++ OCR_FIELD_OPEN ++ ocr_text ++ [DQUOTE]).
    assert (Hufm : str_contains OCR_KEY ufm = true).
    { subst ufm. destruct (str_contains OCR_KEY fm) eqn:E.
      - now apply sub_ocr_field_keeps_key.
      - apply str_contains_app_r. cbn [app str_contains].
        apply orb_true_iff. right.
        apply str_contains_prefix. reflexivity. }
    destruct (expand_template _ 0 (FM_OPEN ++ ufm ++ FM_CLOSE))
      as [replacement|] eqn:Et; [|discriminate].
    cbn. intros H. injection H as <-.
    apply str_contains_app_l.
    apply (expand_template_keeps_key _ _ 0 replacement Et eq_refl).
    cbn [drop]. apply str_contains_app_r. now apply str_contains_app_l.
  - assert (Hblock : str_contains OCR_KEY
                       ((FM_OPEN ++ OCR_FIELD_OPEN ++ ocr_text ++ [DQUOTE]
                         ++ FM_CLOSE ++ [NL]) ++ existing) = true).
    { apply str_contains_app_l, str_contains_app_r.
      apply str_contains_prefix. reflexivity. }
    intros H. injection H as <-. exact Hblock.
Qed.

(** X8. Whatever the document and the text, backslashes included, a
    merge that does not raise writes a document in which [OCR:] occurs:
    every file that [update_markdown_file] writes carries the marker. *)
Theorem update_leaves_marker (v v' : Vault) (md_file ocr_text : str) :
  update_markdown_file v md_file ocr_text = Ok v' ->
  exists updated,
    files v' !! md_file = Some updated
    /\ str_contains OCR_KEY updated = true.
Proof.
  unfold update_markdown_file, read_file.
  destruct (files v !! md_file) as [stored|]; [|discriminate]. cbn.
  destruct (updated_content (universal_newlines stored) ocr_text)
    as [updated|] eqn:E; [|discriminate].
  cbn. intros H. injection H as <-.
  exists updated. split; [|exact (updated_content_marked _ _ _ E)].
  cbn. apply lookup_insert_eq.
Qed.

Lemma update_leaves_marker_witness :
  exists updated,
    files (write_file (vault_of trip_md path_document) trip_md
             (FM_OPEN ++ of_string "source: C:" ++ [TAB] ++ of_string "emp"
              ++ [NL] ++ OCR_FIELD_OPEN ++ of_string "new" ++ [DQUOTE]
              ++ FM_CLOSE ++ [NL] ++ of_string "body")) !! trip_md
    = Some updated
    /\ str_contains OCR_KEY updated = true.
Proof.
  exact (update_leaves_marker (vault_of trip_md path_document) _ trip_md
           (of_string "new") eq_refl).
Defined.

(** ** One pass touches one document *)

(** What a pass does depends on the text of its document only: it
    raises, or leaves the vault alone, or writes one new text to the
    document. *)
Lemma process_markdown_file_local (cfg : Config) (w : World) (v : Vault)
    (md_file : str) :
  exists outcome : result (option str),
    (forall updated, outcome = Ok (Some updated) ->
                     str_contains OCR_KEY updated = true)
    /\ forall u,
        files u !! md_file = files v !! md_file ->
        process_markdown_file cfg w u md_file
        = match outcome with
          | Ok None => Ok u
          | Ok (Some updated) => Ok (write_file u md_file updated)
          | Raise e => Raise e
          end.
Proof.
  destruct (files v !! md_file) as [stored|] eqn:Efile.
  2:{ exists (Raise FileNotFoundError). split; [discriminate|].
      intros u Hu. unfold process_markdown_file, extract_image_links, read_file.
      now rewrite Hu. }
  remember (universal_newlines stored) as content eqn:Econtent.
  set (links := if negb (OVERWRITE_OCR cfg) && str_contains OCR_KEY content
                then []
                else findall_links (alternatives (IMAGE_EXTENSIONS cfg)) 0 content).
  set (text := concat (List.map text_or_empty
                 (as_completed w
                    (List.map (fun link =>
                       perform_ocr cfg w
                         (find_linked_attachment cfg w md_file link)) links)))).
  assert (Hrun : forall u, files u !! md_file = Some stored ->
            process_markdown_file cfg w u md_file
            = match text with
              | [] => Ok u
              | _ :: _ =>
                  match updated_content content text with
                  | Ok updated => Ok (write_file u md_file updated)
                  | Raise e => Raise e
                  end
              end).
  { intros u Hu.
    unfold process_markdown_file, extract_image_links, update_markdown_file,
      read_file.
    rewrite Hu, <- Econtent. cbn. unfold text, links.
    destruct (negb (OVERWRITE_OCR cfg) && str_contains OCR_KEY content); cbn.
    - destruct (concat (List.map text_or_empty (as_completed w [])));
        [reflexivity|].
      cbn. now destruct (updated_content content (n :: l)).
    - destruct (concat _); [reflexivity|].
      cbn. now destruct (updated_content content (n :: l)). }
  destruct text as [|c t] eqn:Etext.
  - exists (Ok None). split; [discriminate|exact Hrun].
  - destruct (updated_content content (c :: t)) as [updated|e] eqn:Eu.
    + exists (Ok (Some updated)). split; [|exact Hrun].
      intros x Hx. injection Hx as <-.
      exact (updated_content_marked _ _ _ Eu).
    + exists (Raise e). split; [discriminate|exact Hrun].
Qed.

(** X9. A pass over a document that returns has changed no other
    document, and has either left the vault as it was or written the
    document once, with a text in which [OCR:] occurs. *)
Theorem process_touches_one_document (cfg : Config) (w : World)
    (v v' : Vault) (md_file : str) :
  process_markdown_file cfg w v md_file = Ok v' ->
  (forall other, other <> md_file -> files v' !! other = files v !! other)
  /\ (v' = v
      \/ exists updated,
           v' = write_file v md_file updated
           /\ str_contains OCR_KEY updated = true).
Proof.
  destruct (process_markdown_file_local cfg w v md_file)
    as (outcome & Hmark & Hrun).
  rewrite (Hrun v eq_refl).
  destruct outcome as [[updated|]|e]; [| |discriminate];
    intros H; injection H as <-.
  - split.
    + intros other Hother. cbn. now apply lookup_insert_ne.
    + right. exists updated. split; [reflexivity|]. now apply Hmark.
  - split; [reflexivity|now left].
Qed.

Lemma process_touches_one_document_witness :
  let v' := write_file two_documents trip_md
              (FM_OPEN ++ OCR_FIELD_OPEN ++ of_string "Hello" ++ [DQUOTE]
               ++ FM_CLOSE ++ [NL] ++ plain_document) in
  (forall other, other <> trip_md ->
                 files v' !! other = files two_documents !! other)
  /\ (v' = two_documents
      \/ exists updated,
           v' = write_file two_documents trip_md updated
           /\ str_contains OCR_KEY updated = true).
Proof.
  apply (process_touches_one_document example_config
           (constant_world (of_string "Hello")) two_documents _ trip_md).
  vm_compute. reflexivity.
Defined.

(** X10. With overwriting off and every future handed back once, a
    second pass over a document changes nothing: the vault a pass
    returns is a fixed point of the pass. *)
Theorem second_pass_is_idle (cfg : Config) (w : World) (v v' : Vault)
    (md_file : str) :
  fair w ->
  OVERWRITE_OCR cfg = false ->
  process_markdown_file cfg w v md_file = Ok v' ->
  process_markdown_file cfg w v' md_file = Ok v'.
Proof.
  intros Hfair Hover.
  destruct (process_markdown_file_local cfg w v md_file)
    as (outcome & Hmark & Hrun).
  rewrite (Hrun v eq_refl).
  destruct outcome as [[updated|]|e]; [| |discriminate];
    intros H; injection H as <-.
  - unfold process_markdown_file, extract_image_links, read_file.
    cbn [files write_file]. rewrite lookup_insert_eq, Hover.
    cbn. rewrite str_contains_key_read, (Hmark updated eq_refl). cbn.
    now rewrite (fair_nil w Hfair).
  - exact (Hrun v eq_refl).
Qed.

Lemma second_pass_is_idle_witness :
  let v' := write_file two_documents trip_md
              (FM_OPEN ++ OCR_FIELD_OPEN ++ of_string "Hello" ++ [DQUOTE]
               ++ FM_CLOSE ++ [NL] ++ plain_document) in
  process_markdown_file example_config (constant_world (of_string "Hello"))
    v' trip_md = Ok v'.
Proof.
  apply (second_pass_is_idle example_config
           (constant_world (of_string "Hello")) two_documents _ trip_md).
  - apply constant_world_fair.
  - reflexivity.
  - vm_compute. reflexivity.
Defined.

(** X11. Passes over two different documents do not depend on each
    other: if one after the other returns, so does the other order, and
    both orders leave the same files. *)
Theorem distinct_documents_commute (cfg : Config) (w : World)
    (v v1 v12 : Vault) (md1 md2 : str) :
  md1 <> md2 ->
  process_markdown_file cfg w v md1 = Ok v1 ->
  process_markdown_file cfg w v1 md2 = Ok v12 ->
  exists v2 v21,
    process_markdown_file cfg w v md2 = Ok v2
    /\ process_markdown_file cfg w v2 md1 = Ok v21
    /\ files v21 = files v12.
Proof.
  intros Hne.
  destruct (process_markdown_file_local cfg w v md1) as (o1 & _ & H1).
  destruct (process_markdown_file_local cfg w v md2) as (o2 & _ & H2).
  rewrite (H1 v eq_refl).
  destruct o1 as [[n1|]|e1]; [| |discriminate];
    intros H; injection H as <-.
  - rewrite (H2 (write_file v md1 n1))
      by (cbn; now apply lookup_insert_ne).
    destruct o2 as [[n2|]|e2]; [| |discriminate];
      intros H; injection H as <-.
    + exists (write_file v md2 n2), (write_file (write_file v md2 n2) md1 n1).
      split; [exact (H2 v eq_refl)|]. split.
      * apply H1. cbn. apply lookup_insert_ne. congruence.
      * cbn. now apply insert_insert_ne.
    + exists v, (write_file v md1 n1).
      split; [exact (H2 v eq_refl)|]. split; [exact (H1 v eq_refl)|reflexivity].
  - intros H. rewrite (H2 v eq_refl) in H.
    destruct o2 as [[n2|]|e2]; [| |discriminate]; injection H as <-.
    + exists (write_file v md2 n2), (write_file v md2 n2).
      split; [exact (H2 v eq_refl)|]. split; [|reflexivity].
      apply H1. cbn. apply lookup_insert_ne. congruence.
    + exists v, v.
      split; [exact (H2 v eq_refl)|]. split; [exact (H1 v eq_refl)|reflexivity].
Qed.

Lemma distinct_documents_commute_witness :
  exists v2 v21,
    process_markdown_file example_config (constant_world (of_string "Hello"))
      two_documents (of_string "Notes/Plan.md") = Ok v2
    /\ process_markdown_file example_config
         (constant_world (of_string "Hello")) v2 trip_md = Ok v21
    /\ files v21
       = files (write_file two_documents trip_md
                  (FM_OPEN ++ OCR_FIELD_OPEN ++ of_string "Hello" ++ [DQUOTE]
                   ++ FM_CLOSE ++ [NL] ++ plain_document)).
Proof.
  apply (distinct_documents_commute example_config
           (constant_world (of_string "Hello")) two_documents
           (write_file two_documents trip_md
              (FM_OPEN ++ OCR_FIELD_OPEN ++ of_string "Hello" ++ [DQUOTE]
               ++ FM_CLOSE ++ [NL] ++ plain_document))
           _ trip_md (of_string "Notes/Plan.md")).
  - discriminate.
  - vm_compute. reflexivity.
  - vm_compute. reflexivity.
Defined.

(** ** Backslashes in the replacement template *)

Lemma double_backslashes_cons (c : char) (u : str) :
  double_backslashes (c :: u)
  = if N.eqb BACKSLASH c then BACKSLASH :: BACKSLASH :: double_backslashes u
    else c :: double_backslashes u.
Proof.
  unfold double_backslashes, str_replace. rewrite !replace_scan_char.
  cbn [flat_map]. now destruct (N.eqb BACKSLASH c).
Qed.

(** A template reads a doubled backslash as one backslash: what the
    last step of the cleaning doubles, the expansion halves. *)
Lemma expand_template_doubled (groups : list str) (u rest : str) :
  expand_template groups 0 (double_backslashes u ++ rest)
  = tail ← expand_template groups 0 rest; Ok (u ++ tail).
Proof.
  induction u as [|c u IH].
  - cbn. now destruct (expand_template groups 0 rest).
  - rewrite double_backslashes_cons.
    destruct (N.eqb BACKSLASH c) eqn:Ec.
    + apply N.eqb_eq in Ec. subst c.
      change ((BACKSLASH :: BACKSLASH :: double_backslashes u) ++ rest)
        with (BACKSLASH :: BACKSLASH :: (double_backslashes u ++ rest)).
      change (expand_template groups 0
                (BACKSLASH :: BACKSLASH :: (double_backslashes u ++ rest)))
        with (tail ← expand_template groups 0 (double_backslashes u ++ rest);
              Ok (BACKSLASH :: tail)).
      rewrite IH. now destruct (expand_template groups 0 rest).
    + change ((c :: double_backslashes u) ++ rest)
        with (c :: (double_backslashes u ++ rest)).
      cbn [expand_template]. rewrite (N.eqb_sym c BACKSLASH), Ec, IH.
      now destruct (expand_template groups 0 rest).
Qed.

Lemma expand_template_plain_app (groups : list str) (p rest : str) :
  plain p = true ->
  expand_template groups 0 (p ++ rest)
  = tail ← expand_template groups 0 rest; Ok (p ++ tail).
Proof.
  induction p as [|c p IH]; intros Hp.
  - cbn. now destruct (expand_template groups 0 rest).
  - unfold plain, lacks in Hp. cbn [forallb] in Hp.
    apply andb_prop in Hp as [Hc Hp]. apply negb_true_iff in Hc.
    cbn [app expand_template]. rewrite Hc, (IH Hp).
    now destruct (expand_template groups 0 rest).
Qed.

(** What an update that has computed a text does to the vault: it
    stores that text in the document and touches no other file. *)
Lemma update_markdown_file_writes (v : Vault)
    (md_file stored ocr_text updated : str) :
  files v !! md_file = Some stored ->
  updated_content (universal_newlines stored) ocr_text = Ok updated ->
  exists v',
    update_markdown_file v md_file ocr_text = Ok v'
    /\ files v' !! md_file = Some updated
    /\ (forall other, other <> md_file ->
                      files v' !! other = files v !! other)
    /\ writes v' = md_file :: writes v.
Proof.
  intros Hfile Hcontent. exists (write_file v md_file updated).
  split; [|split; [|split]].
  - unfold update_markdown_file, read_file. rewrite Hfile.
    cbn [mbind result_bind]. now rewrite Hcontent.
  - cbn. apply lookup_insert_eq.
  - intros other Hother. cbn. apply lookup_insert_ne. congruence.
  - reflexivity.
Qed.

(** X12. A document whose text, as read, starts with a block without a
    backslash and without [OCR:]: the update, given a text whose
    backslashes were doubled, as the cleaning leaves them, stores the
    text as read with one new last line in the block, the field with
    the text and its backslashes single again; no other file
    changes. *)
Theorem append_halves_backslashes (v : Vault)
    (md_file stored front_matter after u : str) :
  files v !! md_file = Some stored ->
  universal_newlines stored = FM_OPEN ++ front_matter ++ FM_CLOSE ++ after ->
  str_contains FM_CLOSE front_matter = false ->
  str_contains OCR_KEY front_matter = false ->
  plain front_matter = true ->
  exists v',
    update_markdown_file v md_file (double_backslashes u) = Ok v'
    /\ files v' !! md_file
       = Some (FM_OPEN ++ front_matter ++ [NL] ++ OCR_FIELD_OPEN ++ u
               ++ [DQUOTE] ++ FM_CLOSE ++ after)
    /\ (forall other, other <> md_file ->
                      files v' !! other = files v !! other)
    /\ writes v' = md_file :: writes v.
Proof.
  intros Hfile Hread Hclose Hkey Hplain.
  apply (update_markdown_file_writes v md_file stored _ _ Hfile).
  rewrite Hread. unfold updated_content.
  rewrite (front_matter_search_closed _ _ Hclose), Hkey.
  replace (FM_OPEN
           ++ (front_matter ++ [NL] ++ OCR_FIELD_OPEN
               ++ double_backslashes u ++ [DQUOTE]) ++ FM_CLOSE)
    with ((FM_OPEN ++ front_matter ++ [NL] ++ OCR_FIELD_OPEN)
          ++ double_backslashes u ++ ([DQUOTE] ++ FM_CLOSE))
    by (now rewrite <- !app_assoc).
  rewrite expand_template_plain_app
    by (rewrite !plain_app, Hplain; reflexivity).
  rewrite expand_template_doubled.
  rewrite (expand_template_plain _ ([DQUOTE] ++ FM_CLOSE) eq_refl).
  cbn [mbind result_bind]. f_equal.
  now rewrite <- !app_assoc.
Qed.

Lemma append_halves_backslashes_witness :
  exists v',
    update_markdown_file
      (vault_of trip_md
         (FM_OPEN ++ of_string "title: Trip" ++ [CR] ++ FM_CLOSE ++ [NL]
          ++ of_string "body"))
      trip_md (clean (of_string "C:\temp")) = Ok v'
    /\ files v' !! trip_md
       = Some (FM_OPEN ++ of_string "title: Trip" ++ [NL]
               ++ OCR_FIELD_OPEN ++ of_string "C:\temp" ++ [DQUOTE]
               ++ FM_CLOSE ++ [NL] ++ of_string "body").
Proof.
  destruct (append_halves_backslashes
              (vault_of trip_md
                 (FM_OPEN ++ of_string "title: Trip" ++ [CR] ++ FM_CLOSE
                  ++ [NL] ++ of_string "body"))
              trip_md
              (FM_OPEN ++ of_string "title: Trip" ++ [CR] ++ FM_CLOSE
               ++ [NL] ++ of_string "body")
              (of_string "title: Trip") ([NL] ++ of_string "body")
              (of_string "C:\temp") eq_refl eq_refl eq_refl eq_refl eq_refl)
    as (v' & Hrun & Hheld & _).
  exists v'. split; [exact Hrun|exact Hheld].
Defined.



(** The block is the one of the text as read: a carriage return before
    three hyphens in the stored text closes the block at reading, so
    the backslash that follows is outside the block and the update
    goes through. *)
Lemma unknown_escape_after_carriage_return :
  let stored :=
    FM_OPEN ++ of_string "ab" ++ [CR] ++ of_string "---" ++ [NL]
    ++ of_string "C:\Users" ++ FM_CLOSE ++ [NL] ++ of_string "body" in
  update_markdown_file (vault_of trip_md stored) trip_md (of_string "Hello")
  = Ok (write_file (vault_of trip_md stored) trip_md
          (FM_OPEN ++ of_string "ab" ++ [NL] ++ OCR_FIELD_OPEN
           ++ of_string "Hello" ++ [DQUOTE] ++ FM_CLOSE ++ [NL]
           ++ of_string "C:\Users" ++ FM_CLOSE ++ [NL]
           ++ of_string "body")).
Proof. vm_compute. reflexivity. Qed.

(** ** [update_markdown_file] on documents without backslashes *)

Lemma Ok_inj {A : Type} (a b : A) : Ok a = Ok b -> a = b.
Proof. now intros [= ->]. Qed.

(** Without a backslash in the block and in the text, and without a
    carriage return in what is read and in the text, the merged text
    holds no carriage return. *)
Lemma updated_content_lacks_cr (existing ocr_text once : str) :
  lacks CR existing = true ->
  lacks CR ocr_text = true ->
  lacks NL ocr_text = true ->
  plain ocr_text = true ->
  (forall front_matter after,
      front_matter_search existing = Some (front_matter, after) ->
      plain front_matter = true) ->
  updated_content existing ocr_text = Ok once ->
  lacks CR once = true.
Proof.
  intros Hcr Htext Hline Hplain Hblock.
  destruct (front_matter_search existing) as [[fm after]|] eqn:Esearch.
  - pose proof (front_matter_search_no_close _ _ _ Esearch) as Hclose.
    pose proof (Hblock fm after eq_refl) as Hfm.
    pose proof (front_matter_search_inv _ _ _ Esearch) as Hshape.
    rewrite Hshape in Hcr |- *.
    rewrite (updated_content_plain fm after ocr_text Hclose Hfm Hplain Hline).
    intros H. apply Ok_inj in H. subst once.
    rewrite !lacks_app in Hcr.
    apply andb_prop in Hcr as [_ Hcr]. apply andb_prop in Hcr as [Hfmcr Hcr].
    apply andb_prop in Hcr as [_ Hafter].
    rewrite !lacks_app, Hafter.
    destruct (str_contains OCR_KEY fm).
    + now rewrite (sub_ocr_field_lacks_cr ocr_text fm Htext Hfmcr).
    + now rewrite !lacks_app, Hfmcr, Htext.
  - unfold updated_content. rewrite Esearch.
    intros H. apply Ok_inj in H. subst once.
    now rewrite !lacks_app, Htext, Hcr.
Qed.

(** X14. Merging the same text twice stores the same text twice, when
    the text is on one line and holds no carriage return, and neither
    the text nor the block of the document, as read, holds a backslash:
    after the second update the document holds what it held after the
    first, and so does every file. *)
Theorem update_twice_plain (v : Vault) (md_file stored ocr_text : str) :
  files v !! md_file = Some stored ->
  lacks NL ocr_text = true ->
  lacks CR ocr_text = true ->
  plain ocr_text = true ->
  (forall front_matter after,
      front_matter_search (universal_newlines stored)
      = Some (front_matter, after) ->
      plain front_matter = true) ->
  exists v1 v2 once,
    update_markdown_file v md_file ocr_text = Ok v1
    /\ files v1 !! md_file = Some once
    /\ update_markdown_file v1 md_file ocr_text = Ok v2
    /\ files v2 !! md_file = Some once
    /\ files v2 = files v1.
Proof.
  intros Hfile Hline Hcr Htext Hblock.
  destruct (merge_idempotent_plain (universal_newlines stored) ocr_text
              Hline Htext Hblock) as (once & Hfirst & Hsecond).
  pose proof (updated_content_lacks_cr _ _ _
                (universal_newlines_lacks_cr stored) Hcr Hline Htext
                Hblock Hfirst) as Honce.
  destruct (update_markdown_file_writes v md_file stored ocr_text once
              Hfile Hfirst) as (v1 & Hrun1 & Hheld1 & Hframe1 & _).
  rewrite <- (universal_newlines_id _ Honce) in Hsecond at 1.
  destruct (update_markdown_file_writes v1 md_file once ocr_text once
              Hheld1 Hsecond) as (v2 & Hrun2 & Hheld2 & Hframe2 & _).
  exists v1, v2, once. repeat split; try assumption.
  apply map_eq. intros path.
  destruct (decide (path = md_file)) as [->|Hne].
  - now rewrite Hheld1, Hheld2.
  - now apply Hframe2.
Qed.

Lemma update_twice_plain_witness :
  exists v1 v2 once,
    update_markdown_file (vault_of trip_md marked_document) trip_md
      (of_string "new text") = Ok v1
    /\ files v1 !! trip_md = Some once
    /\ update_markdown_file v1 trip_md (of_string "new text") = Ok v2
    /\ files v2 !! trip_md = Some once
    /\ files v2 = files v1.
Proof.
  apply (update_twice_plain (vault_of trip_md marked_document) trip_md
           marked_document (of_string "new text")); try reflexivity.
  intros front_matter after H. vm_compute in H.
  injection H as <- _. reflexivity.
Defined.

(** With a carriage return in the text the second update differs: the
    carriage return stored by the first is read back as a line feed,
    which ends the line of the field before its closing quote. *)
Lemma update_twice_carriage_return :
  let text := of_string "a" ++ [CR] ++ of_string "b" in
  let first :=
    FM_OPEN ++ OCR_FIELD_OPEN ++ of_string "a" ++ [CR] ++ of_string "b"
    ++ [DQUOTE] ++ FM_CLOSE ++ [NL] ++ of_string "![[photo.png]]" in
  let second :=
    FM_OPEN ++ OCR_FIELD_OPEN ++ of_string "a" ++ [NL] ++ of_string "b"
    ++ [DQUOTE] ++ FM_CLOSE ++ [NL] ++ of_string "![[photo.png]]" in
  let v1 := write_file (vault_of trip_md marked_document) trip_md first in
  update_markdown_file (vault_of trip_md marked_document) trip_md text = Ok v1
  /\ update_markdown_file v1 trip_md text = Ok (write_file v1 trip_md second)
  /\ first <> second.
Proof.
  split; [vm_compute; reflexivity|]. split; [vm_compute; reflexivity|].
  discriminate.
Qed.



(** ** [list_markdown_files] *)

(** Induction on a tree, with the property at hand for every child of a
    directory. *)
Lemma entry_children_ind (P : entry -> Prop) :
  (forall name, P (File name)) ->
  (forall name children, Forall P children -> P (Dir name children)) ->
  forall e, P e.
Proof.
  intros Hfile Hdir. fix IH 1. intros [name|name children].
  - apply Hfile.
  - apply Hdir. induction children as [|c children IHc].
    + constructor.
    + constructor; [apply IH|exact IHc].
Qed.

Lemma flat_map_flat_map {A B C : Type} (f : B -> list C) (g : A -> list B)
    (l : list A) :
  flat_map f (flat_map g l) = flat_map (fun a => flat_map f (g a)) l.
Proof.
  induction l as [|a l IH]; [reflexivity|].
  cbn [flat_map]. now rewrite flat_map_app, IH.
Qed.

(** The files of a directory first, then those of its directories, each
    under the joined path. *)
Lemma list_markdown_files_dir (path name : str) (children : list entry) :
  list_markdown_files path (Dir name children)
  = List.map (path_join path)
      (List.filter (str_endswith MD_SUFFIX) (file_names children))
    ++ flat_map (fun c => match c with
                          | Dir sub _ => list_markdown_files (path_join path sub) c
                          | File _ => []
                          end) children.
Proof.
  unfold list_markdown_files. cbn [os_walk flat_map]. f_equal.
  rewrite flat_map_flat_map. apply flat_map_ext.
  now intros [file|sub grandchildren].
Qed.

Lemma str_endswith_app (suffix x s : str) :
  str_endswith suffix s = true -> str_endswith suffix (x ++ s) = true.
Proof.
  unfold str_endswith. intros H. rewrite rev_app_distr.
  apply str_startswith_inv in H. rewrite H, <- app_assoc.
  apply str_startswith_app.
Qed.

Lemma path_join_endswith (suffix a b : str) :
  str_endswith suffix b = true -> str_endswith suffix (path_join a b) = true.
Proof.
  intros H. unfold path_join.
  destruct (str_startswith [SLASH] b); [exact H|].
  destruct a as [|c a]; [exact H|].
  destruct (str_endswith [SLASH] (c :: a)).
  - now apply str_endswith_app.
  - apply str_endswith_app. now apply (str_endswith_app suffix [SLASH]).
Qed.

(** X16. Every path that [list_markdown_files] returns ends in [.md],
    whatever the tree and the path it starts from. *)
Theorem list_markdown_files_suffix (path : str) (tree : entry) :
  Forall (fun p => str_endswith MD_SUFFIX p = true)
    (list_markdown_files path tree).
Proof.
  revert path. induction tree as [name|name children IH]
    using entry_children_ind; intros path.
  - constructor.
  - rewrite list_markdown_files_dir. apply Forall_app. split.
    + apply List.Forall_forall. intros p Hp.
      apply in_map_iff in Hp as (file & <- & Hfile).
      apply filter_In in Hfile as [_ Hmd].
      now apply path_join_endswith.
    + induction IH as [|c children Hc _ IHc]; [constructor|].
      cbn [flat_map]. apply Forall_app. split; [|exact IHc].
      destruct c as [file|sub grandchildren]; [constructor|apply Hc].
Qed.

Lemma list_sum_cons (x : nat) (l : list nat) :
  list_sum (x :: l) = x + list_sum l.
Proof. reflexivity. Qed.

(** X17. [list_markdown_files] returns as many paths as there are files
    under the directory, at any depth, whose name ends in [.md]: none is
    left out and none is listed twice. *)
Theorem list_markdown_files_count (path : str) (tree : entry) :
  length (list_markdown_files path tree) = count_markdown tree.
Proof.
  revert path. induction tree as [name|name children IH]
    using entry_children_ind; intros path.
  - reflexivity.
  - rewrite list_markdown_files_dir. cbn [count_markdown].
    rewrite length_app, length_map.
    induction IH as [|c children Hc _ IHc]; [reflexivity|].
    destruct c as [file|sub grandchildren].
    + cbn [file_names flat_map app List.filter List.map].
      change (flat_map (fun c => match c with
                                 | File name => [name]
                                 | Dir _ _ => []
                                 end) children) with (file_names children).
      rewrite list_sum_cons.
      destruct (str_endswith MD_SUFFIX file); cbn [length]; lia.
    + cbn [file_names flat_map app List.map].
      change (flat_map (fun c => match c with
                                 | File name => [name]
                                 | Dir _ _ => []
                                 end) children) with (file_names children).
      rewrite list_sum_cons, length_app, (Hc (path_join path sub)). lia.
Qed.

Lemma str_startswith_trans (a b s : str) :
  str_startswith a b = true -> str_startswith b s = true ->
  str_startswith a s = true.
Proof.
  intros Hab Hbs.
  apply str_startswith_inv in Hab. apply str_startswith_inv in Hbs.
  rewrite Hbs, Hab, <- app_assoc. apply str_startswith_app.
Qed.

Lemma path_join_startswith (a b : str) :
  str_startswith [SLASH] b = false -> str_startswith a (path_join a b) = true.
Proof.
  intros H. unfold path_join. rewrite H.
  destruct a as [|c a]; [reflexivity|].
  destruct (str_endswith [SLASH] (c :: a)); apply str_startswith_app.
Qed.

(** X18. When no name in the tree starts with a slash, every path that
    [list_markdown_files] returns starts with the path it was given. *)
Theorem list_markdown_files_prefix (path : str) (tree : entry) :
  relative_names tree = true ->
  Forall (fun p => str_startswith path p = true)
    (list_markdown_files path tree).
Proof.
  revert path. induction tree as [name|name children IH]
    using entry_children_ind; intros path Hrel.
  - constructor.
  - cbn [relative_names] in Hrel. apply andb_prop in Hrel as [_ Hrel].
    rewrite list_markdown_files_dir. apply Forall_app. split.
    + apply List.Forall_forall. intros p Hp.
      apply in_map_iff in Hp as (file & <- & Hfile).
      apply filter_In in Hfile as [Hfile _].
      apply path_join_startswith.
      clear IH. induction children as [|c children IHc]; [destruct Hfile|].
      cbn [forallb] in Hrel. apply andb_prop in Hrel as [Hc Hrel].
      cbn [file_names flat_map] in Hfile. apply in_app_or in Hfile as [Hin|Hin].
      * destruct c as [f|sub grandchildren]; [|destruct Hin].
        destruct Hin as [<-|[]]. cbn [relative_names] in Hc.
        now apply negb_true_iff in Hc.
      * now apply IHc.
    + induction IH as [|c children Hc _ IHc]; [constructor|].
      cbn [forallb] in Hrel. apply andb_prop in Hrel as [Hrc Hrel].
      cbn [flat_map]. apply Forall_app. split; [|now apply IHc].
      destruct c as [file|sub grandchildren]; [constructor|].
      pose proof (Hc (path_join path sub) Hrc) as Hsub.
      cbn [relative_names] in Hrc. apply andb_prop in Hrc as [Hname _].
      apply negb_true_iff in Hname.
      eapply Forall_impl; [exact Hsub|].
      intros p Hp. cbn beta in Hp.
      exact (str_startswith_trans _ _ _ (path_join_startswith _ _ Hname) Hp).
Qed.

Lemma list_markdown_files_prefix_witness :
  Forall (fun p => str_startswith (of_string "/v/") p = true)
    (list_markdown_files (of_string "/v/") example_tree).
Proof.
  apply (list_markdown_files_prefix (of_string "/v/") example_tree).
  reflexivity.
Defined.

(** ** What [extract_image_links] finds *)
















(** ** A document with one image *)

(** X20. A document whose text, as read, has no block, with one link
    whose image is recognised with a text that is not empty: the pass
    writes the document once, and afterwards the file holds the block
    with that text followed by the text of the document as it was read;
    a document without a carriage return follows the block unchanged.
    No other file changes. *)
Theorem single_image_prepends_block (cfg : Config) (w : World) (v : Vault)
    (md_file stored link text : str) :
  fair w ->
  files v !! md_file = Some stored ->
  extract_image_links cfg v md_file (OVERWRITE_OCR cfg) = Ok [link] ->
  perform_ocr cfg w (find_linked_attachment cfg w md_file link) = Some text ->
  text <> [] ->
  front_matter_search (universal_newlines stored) = None ->
  exists v',
    process_markdown_file cfg w v md_file = Ok v'
    /\ files v' !! md_file
       = Some (FM_OPEN ++ OCR_FIELD_OPEN ++ text ++ [DQUOTE] ++ FM_CLOSE
               ++ [NL] ++ universal_newlines stored)
    /\ (lacks CR stored = true ->
        files v' !! md_file
        = Some (FM_OPEN ++ OCR_FIELD_OPEN ++ text ++ [DQUOTE] ++ FM_CLOSE
                ++ [NL] ++ stored))
    /\ (forall other, other <> md_file ->
                      files v' !! other = files v !! other)
    /\ writes v' = md_file :: writes v.
Proof.
  intros Hfair Hfile Hlinks Hocr Htext Hblock.
  assert (Hcontent : updated_content (universal_newlines stored) text
                     = Ok (FM_OPEN ++ OCR_FIELD_OPEN ++ text ++ [DQUOTE]
                           ++ FM_CLOSE ++ [NL] ++ universal_newlines stored)).
  { unfold updated_content. rewrite Hblock. now rewrite <- !app_assoc. }
  destruct (update_markdown_file_writes v md_file stored text _ Hfile Hcontent)
    as (v' & Hrun & Hheld & Hframe & Hlog).
  exists v'. split; [|split; [exact Hheld|split; [|split; assumption]]].
  - unfold process_markdown_file. rewrite Hlinks.
    cbn [mbind result_bind List.map]. rewrite Hocr.
    assert (Hone : as_completed w [Some text] = [Some text]).
    { apply Permutation_length_1_inv. symmetry. apply Hfair. }
    rewrite Hone. cbn [List.map concat text_or_empty]. rewrite app_nil_r.
    destruct text as [|c text]; [now destruct Htext|]. exact Hrun.
  - intros Hcr. now rewrite Hheld, (universal_newlines_id _ Hcr).
Qed.

Lemma single_image_prepends_block_witness :
  exists v',
    process_markdown_file example_config (constant_world (of_string "Hello"))
      (vault_of trip_md plain_document) trip_md = Ok v'
    /\ files v' !! trip_md
       = Some (FM_OPEN ++ OCR_FIELD_OPEN ++ of_string "Hello" ++ [DQUOTE]
               ++ FM_CLOSE ++ [NL] ++ plain_document).
Proof.
  destruct (single_image_prepends_block example_config
              (constant_world (of_string "Hello"))
              (vault_of trip_md plain_document) trip_md plain_document
              (of_string "photo.png") (of_string "Hello")
              (constant_world_fair _) eq_refl eq_refl eq_refl)
    as (v' & Hrun & _ & Hheld & _).
  - discriminate.
  - reflexivity.
  - exists v'. split; [exact Hrun|exact (Hheld eq_refl)].
Defined.
